(** * Smart parking: slot normalisation, allocation and path selection

    A shallow embedding of the decision logic of [src/App.js]
    (the [SmartParkingSystem] component): the slot normaliser inside
    [roboflowAPI.detectParkingSlots], [mapClassToVehicleType], the allocation
    step of [detectVehicleAndAllocate], [generatePathsToSlot],
    [detectPathVehicleIntensities], [calculateOptimalPath],
    [handleVehicleIntensityChange] and [resetSystem].

    Conventions of the embedding.
    - JavaScript numbers are exact: integers are [Z], other numbers are
      rationals [Q] (the literals 0.1, 0.6 and 0.3 are 1/10, 6/10, 3/10).
      Two functions whose results depend on the rounding of IEEE doubles
      are given a second time, in double arithmetic:
      [Rounded.generatePathsToSlot], on the rationals that are doubles,
      with every operation followed by the rounding [Binary64.round]; and
      [Float64.calculateOptimalPath], on the binary64 numbers of the
      kernel, infinities and NaN included.
    - [Array.prototype.sort] runs the engine's algorithm. [JS.sort] is the
      stable insertion sort, [JS.merge_sort] the stable merge sort; they
      return the same list wherever the comparator orders the elements
      consistently, which is where ECMAScript fixes the result.
    - Strings are [string]; [toLowerCase] folds the ASCII letters.
    - The React state of the component is one record, [AppState]; every
      handler is a function from the state it closes over (and the outcome
      of the network call, and the values [Math.random] returns) to the
      next state.
    - [Math.random] is a stream [nat -> Q] of draws, the n-th call reading
      the n-th draw; [Math.sqrt] is a parameter. *)

From Stdlib Require Import ZArith QArith Qround Qabs Qpower Lia Lqa List String Ascii Bool.
From Stdlib Require Import Floats.
From Stdlib Require Import Sorting.Sorted.
From stdpp Require Import gmap strings list pretty.
Import ListNotations.

Open Scope Z_scope.

(** ** JavaScript primitives used by the component *)

Module JS.

(** [String.prototype.toLowerCase], on ASCII: the letters A to Z are
    mapped and every other character is left as it is. The engine also maps
    letters outside ASCII; what is proved of a lowered label for every
    string is proved without looking at how a character is mapped. *)
Definition toLowerCase_char (c : ascii) : ascii :=
  let n := N_of_ascii c in
  if ((65 <=? n) && (n <=? 90))%N then ascii_of_N (n + 32) else c.

Fixpoint toLowerCase (s : string) : string :=
  match s with
  | EmptyString => EmptyString
  | String c s' => String (toLowerCase_char c) (toLowerCase s')
  end.

(** [String.prototype.includes]: [includes s k] is [s.includes(k)]. *)
Fixpoint includes (s k : string) : bool :=
  String.prefix k s ||
  match s with
  | EmptyString => false
  | String _ s' => includes s' k
  end.

(** [Array.prototype.some]. *)
Definition some {A} (p : A -> bool) (l : list A) : bool := existsb p l.

(** [Array.prototype.reduce] without an initial value: the first element
    seeds the accumulator, the callback receives (accumulator, element);
    on an empty array it throws a TypeError, here [None]. *)
Definition reduce {A} (f : A -> A -> A) (l : list A) : option A :=
  match l with
  | [] => None
  | a :: l' => Some (fold_left f l' a)
  end.

(** [Array.prototype.sort] with a comparator. The algorithm is the engine's;
    ECMAScript requires a stable sort and fixes the result when the
    comparator is consistent on the elements, and leaves the order to the
    engine when it is not. [sort] is the stable insertion sort: an element
    goes before the first element it does not compare greater than. *)
Fixpoint sort_insert {A} (cmp : A -> A -> Q) (a : A) (l : list A) : list A :=
  match l with
  | [] => [a]
  | b :: l' =>
      if Qle_bool (cmp a b) 0 then a :: b :: l' else b :: sort_insert cmp a l'
  end.

Fixpoint sort {A} (cmp : A -> A -> Q) (l : list A) : list A :=
  match l with
  | [] => []
  | a :: l' => sort_insert cmp a (sort cmp l')
  end.

(** A second algorithm an engine may run: the stable bottom-up merge sort.
    [merge] takes from the left run unless the head of the right run
    compares strictly smaller; a round merges the runs two by two; the
    runs start as the single elements. The number of rounds is bounded by
    the length, which is more than the halving needs. *)
Fixpoint merge {A} (cmp : A -> A -> Q) (l r : list A) : list A :=
  let fix merge_r (r : list A) : list A :=
    match l, r with
    | [], _ => r
    | _, [] => l
    | a :: l', b :: r' =>
        if Qle_bool (cmp a b) 0 then a :: merge cmp l' r else b :: merge_r r'
    end in
  merge_r r.

Fixpoint merge_pairs {A} (cmp : A -> A -> Q) (runs : list (list A)) : list (list A) :=
  match runs with
  | a :: b :: rest => merge cmp a b :: merge_pairs cmp rest
  | _ => runs
  end.

Fixpoint merge_rounds {A} (cmp : A -> A -> Q) (rounds : nat) (runs : list (list A))
    : list A :=
  match runs, rounds with
  | [], _ => []
  | [run], _ => run
  | _, S rounds' => merge_rounds cmp rounds' (merge_pairs cmp runs)
  | _, O => concat runs
  end.

Definition merge_sort {A} (cmp : A -> A -> Q) (l : list A) : list A :=
  merge_rounds cmp (length l) (map (fun a => [a]) l).

(** [Math.floor] and [Math.ceil] on a quotient of integers. *)
Definition floor_div (a b : Z) : Z := Qfloor (inject_Z a / inject_Z b).
Definition ceil_div (a b : Z) : Z := Qceiling (inject_Z a / inject_Z b).

(** [parseInt(s)] with no radix: leading white space (here the ASCII one)
    is skipped, an optional sign is read, then a [0x] or [0X] prefix
    selects radix 16, and the longest run of digits of the radix is read;
    [None] is NaN (no digit was found). The value is the integer read; the
    engine returns the nearest double, which is that integer up to 2^53 in
    magnitude. *)
Definition is_space (c : ascii) : bool :=
  let n := N_of_ascii c in ((n =? 32) || ((9 <=? n) && (n <=? 13)))%N.

Definition digit_of (radix : Z) (c : ascii) : option Z :=
  let n := N_of_ascii c in
  let d :=
    if ((48 <=? n) && (n <=? 57))%N then Some (Z.of_N (n - 48))
    else if ((97 <=? n) && (n <=? 122))%N then Some (Z.of_N (n - 87))
    else if ((65 <=? n) && (n <=? 90))%N then Some (Z.of_N (n - 55))
    else None in
  match d with
  | Some v => if v <? radix then Some v else None
  | None => None
  end.

Fixpoint skip_spaces (s : string) : string :=
  match s with
  | String c s' => if is_space c then skip_spaces s' else s
  | EmptyString => s
  end.

Fixpoint read_digits (radix : Z) (acc : option Z) (s : string) : option Z :=
  match s with
  | EmptyString => acc
  | String c s' =>
      match digit_of radix c with
      | Some d => read_digits radix (Some (radix * default 0 acc + d)) s'
      | None => acc
      end
  end.

Definition read_magnitude (s : string) : option Z :=
  match s with
  | String "0" (String "x" s') | String "0" (String "X" s') =>
      read_digits 16 None s'
  | _ => read_digits 10 None s
  end.

Definition parseInt (s : string) : option Z :=
  match skip_spaces s with
  | String "-" s' => Z.opp <$> read_magnitude s'
  | String "+" s' => read_magnitude s'
  | s' => read_magnitude s'
  end.

(** [String.prototype.toUpperCase], on ASCII: the letters a to z are
    mapped and every other character is left as it is. Outside ASCII the
    engine maps more letters and can lengthen the string; what depends on
    it is stated for ASCII strings ([is_ascii]). *)
Definition toUpperCase_char (c : ascii) : ascii :=
  let n := N_of_ascii c in
  if ((97 <=? n) && (n <=? 122))%N then ascii_of_N (n - 32) else c.

Fixpoint toUpperCase (s : string) : string :=
  match s with
  | EmptyString => EmptyString
  | String c s' => String (toUpperCase_char c) (toUpperCase s')
  end.

(** [String.prototype.trim]: the white space at both ends is dropped. *)
Fixpoint trimEnd (s : string) : string :=
  match s with
  | EmptyString => EmptyString
  | String c s' =>
      match trimEnd s' with
      | EmptyString => if is_space c then EmptyString else String c EmptyString
      | t => String c t
      end
  end.

Definition trim (s : string) : string := trimEnd (skip_spaces s).

(** [s.charAt(0)] and [s.slice(1)]. *)
Definition charAt0 (s : string) : string :=
  match s with
  | EmptyString => EmptyString
  | String c _ => String c EmptyString
  end.

Definition slice1 (s : string) : string :=
  match s with
  | EmptyString => EmptyString
  | String _ s' => s'
  end.

End JS.

(** ** Double arithmetic *)

(** The finite doubles are rationals, and an operation on doubles is the
    exact operation followed by the rounding of IEEE 754 binary64 (to
    nearest, ties to even): 53 significant bits, the smallest spacing
    2^-1074. Overflow is not modelled: the results below stay under 2^1024. *)
Module Binary64.

(** The binade of a positive rational: the [k] with 2^k <= q < 2^(k+1). *)
Definition ilog2 (q : Q) : Z :=
  let k := Z.log2 (Qnum q) - Z.log2 (Z.pos (Qden q)) in
  if Qle_bool (2 ^ k) q then k else k - 1.

(** The nearest integer, a tie going to the even one. *)
Definition round_half_even (q : Q) : Z :=
  let n := Qfloor q in
  match (q - inject_Z n ?= 1 # 2)%Q with
  | Lt => n
  | Gt => n + 1
  | Eq => if Z.even n then n else n + 1
  end.

(** The exponent of the last place of the doubles in the binade of a
    positive [q]. *)
Definition ulp_exponent (q : Q) : Z := Z.max (ilog2 q - 52) (-1074).

Definition round_positive (q : Q) : Q :=
  let e := ulp_exponent q in
  (inject_Z (round_half_even (q / 2 ^ e)) * 2 ^ e)%Q.

Definition round (q : Q) : Q :=
  match (q ?= 0)%Q with
  | Eq => 0
  | Gt => round_positive q
  | Lt => - round_positive (- q)
  end.

(** [a + b] and [a * b] on doubles. *)
Definition add (a b : Q) : Q := round (a + b).
Definition mul (a b : Q) : Q := round (a * b).

(** [q] is a double. *)
Definition representable (q : Q) : Prop := (round q == q)%Q.

End Binary64.

(** ** Data model *)

(** The canonical vehicle categories, the values of [classMapping] and the
    keys of [vehicleRules]. *)
Inductive VehicleType := car | truck | bus | motorcycle | van.

#[global] Instance VehicleType_eq_dec : EqDecision VehicleType.
Proof. solve_decision. Defined.

(** ** Vehicle classifier adapter *)

(** The object literal [classMapping]; [Object.entries] lists its keys in
    the order they are written. *)
Definition classMapping : list (string * VehicleType) :=
  [ ("car", car); ("sedan", car); ("hatchback", car); ("suv", car);
    ("truck", truck); ("pickup", truck);
    ("bus", bus);
    ("motorcycle", motorcycle); ("motorbike", motorcycle);
    ("bike", motorcycle); ("scooter", motorcycle);
    ("van", van); ("minivan", van) ]%string.

(** The [for ... of] loop over the entries, returning at the first key the
    lowered label includes. *)
Fixpoint first_match (lowerClass : string) (entries : list (string * VehicleType))
  : option VehicleType :=
  match entries with
  | [] => None
  | (key, value) :: rest =>
      if JS.includes lowerClass key then Some value
      else first_match lowerClass rest
  end.

Definition mapClassToVehicleType (detectedClass : string) : VehicleType :=
  let lowerClass := JS.toLowerCase detectedClass in
  match first_match lowerClass classMapping with
  | Some value => value
  | None => car
  end.

(** ** Detections and slots *)

(** One prediction of the detection service. *)
Record Prediction := {
  x : Q;
  y : Q;
  width : Q;
  height : Q;
  confidence : Q;
  class : string
}.

(** [result.image]: the source image dimensions; an absent dimension reads
    as a falsy value, as 0 does. *)
Record ImageData := {
  img_width : Q;
  img_height : Q
}.

Inductive SlotStatus := empty | occupied.

#[global] Instance SlotStatus_eq_dec : EqDecision SlotStatus.
Proof. solve_decision. Defined.

Record Slot := {
  slot_number : Z;
  status : SlotStatus;
  row : Z;
  col : Z;
  slot_x : Q;
  slot_y : Q;
  slot_width : Q;
  slot_height : Q;
  slot_confidence : Q;
  original_class : string;
  is_corner : bool;
  is_edge : bool;
  distance_from_entrance : Q
}.

Definition emptyClasses : list string :=
  ["empty"; "parking spot"; "available"; "free"]%string.

Definition isEmptySlot (className : string) : bool :=
  JS.some (fun empty => JS.includes (JS.toLowerCase className) (JS.toLowerCase empty))
          emptyClasses.

(** The comparator handed to [sort]. *)
Definition spatial_compare (a b : Prediction) : Q :=
  let yDiff := Qabs (y a - y b) in
  (if Qlt_le_dec yDiff 50 then x a - x b else y a - y b)%Q.

Definition sortSlotsSpatiallly (predictions : list Prediction) : list Prediction :=
  JS.sort spatial_compare predictions.

(** [sortSlotsSpatiallly] on an engine whose [Array.prototype.sort] runs
    the algorithm [engine]; [sortSlotsSpatiallly] itself is the case of the
    insertion sort. *)
Definition sortSlotsSpatiallly_on
    (engine : (Prediction -> Prediction -> Q) -> list Prediction -> list Prediction)
    (predictions : list Prediction) : list Prediction :=
  engine spatial_compare predictions.

Definition slotsPerRow : Z := 8.

Definition isCornerSlot (index totalSlots : Z) : bool :=
  let row := JS.floor_div index slotsPerRow in
  let col := Z.rem index slotsPerRow in
  let totalRows := JS.ceil_div totalSlots slotsPerRow in
  ((row =? 0) || (row =? totalRows - 1)) && ((col =? 0) || (col =? slotsPerRow - 1)).

Definition isEdgeSlot (index totalSlots : Z) : bool :=
  let row := JS.floor_div index slotsPerRow in
  let col := Z.rem index slotsPerRow in
  let totalRows := JS.ceil_div totalSlots slotsPerRow in
  (row =? 0) || (row =? totalRows - 1) || (col =? 0) || (col =? slotsPerRow - 1).

(** A number is truthy when it is not 0. *)
Definition truthy (q : Q) : bool := negb (Qeq_bool q 0).

Definition calculateDistanceFromEntrance (sqrt : Q -> Q)
    (prediction : Prediction) (imageData : option ImageData) : Q :=
  let entranceX :=
    match imageData with
    | Some i => if truthy (img_width i) then (img_width i / 2)%Q else 640%Q
    | None => 640%Q
    end in
  let entranceY :=
    match imageData with
    | Some i => if truthy (img_height i) then img_height i else 480%Q
    | None => 480%Q
    end in
  let dx := (x prediction - entranceX)%Q in
  let dy := (y prediction - entranceY)%Q in
  sqrt (dx * dx + dy * dy)%Q.

(** ** The detection service *)

(** The parsed JSON body of a response. *)
Record ApiResult := {
  predictions : option (list Prediction);
  image : option ImageData
}.

(** What [await fetch(...)] followed by [response.json()] yields: a rejected
    promise (an Error with its message), or a response with its body. *)
Inductive FetchOutcome :=
  | fetch_rejects (message : string)
  | fetch_response (ok : bool) (http_status : Z) (statusText : string)
                   (result : ApiResult).

(** A thrown [Error] is its message. *)
Definition Throws (A : Type) : Type := string + A.

Record SlotDetection := {
  total_slots : Z;
  empty_slots : list Z;
  occupied_slots : list Z;
  slots : list Slot;
  detection_image : option ImageData
}.

Record VehicleResult := {
  vehicle_type : VehicleType;
  vr_confidence : Q;
  vr_x : Q;
  vr_y : Q;
  vr_width : Q;
  vr_height : Q;
  vr_original_class : string
}.

(** The slot record built for the prediction at [index] of the sorted list. *)
Definition make_slot (sqrt : Q -> Q) (imageData : option ImageData)
    (totalSlots : Z) (index : nat) (pred : Prediction) : Slot :=
  {| slot_number := Z.of_nat index + 1;
     status := if isEmptySlot (class pred) then empty else occupied;
     row := JS.floor_div (Z.of_nat index) 8;
     col := Z.rem (Z.of_nat index) 8;
     slot_x := x pred;
     slot_y := y pred;
     slot_width := width pred;
     slot_height := height pred;
     slot_confidence := confidence pred;
     original_class := class pred;
     is_corner := isCornerSlot (Z.of_nat index) totalSlots;
     is_edge := isEdgeSlot (Z.of_nat index) totalSlots;
     distance_from_entrance := calculateDistanceFromEntrance sqrt pred imageData |}.

(** The object [detectParkingSlots] returns for the sorted predictions. *)
Definition detection_of (sqrt : Q -> Q) (image : option ImageData)
    (sortedSlots : list Prediction) : SlotDetection :=
  let total := Z.of_nat (length sortedSlots) in
  {| total_slots := total;
     empty_slots :=
       imap (fun i _ => Z.of_nat i + 1)
            (filter (fun s => isEmptySlot (class s) = true) sortedSlots);
     occupied_slots :=
       imap (fun i _ => Z.of_nat i + 1)
            (filter (fun s => isEmptySlot (class s) = false) sortedSlots);
     slots := imap (make_slot sqrt image total) sortedSlots;
     detection_image := image |}.

Module roboflowAPI.

Definition detectParkingSlots (sqrt : Q -> Q) (apiKey : string)
    (response : FetchOutcome) : Throws SlotDetection :=
  if decide (apiKey = ""%string) then inl "Please enter your Roboflow API key"%string
  else
    match response with
    | fetch_rejects message => inl message
    | fetch_response ok http_status statusText result =>
        if negb ok then
          inl ("API Error: " +:+ pretty http_status +:+ " - " +:+ statusText)
        else
          match predictions result with
          | None | Some [] =>
              inl "No parking slots detected. Try adjusting the image or confidence threshold."%string
          | Some preds =>
              let sortedSlots := sortSlotsSpatiallly preds in
              inr (detection_of sqrt (image result) sortedSlots)
          end
    end.

(** The highest-confidence prediction: a later one replaces the best so far
    only when strictly more confident. *)
Definition bestPrediction (preds : list Prediction) : option Prediction :=
  JS.reduce (fun best current =>
               if Qlt_le_dec (confidence best) (confidence current) then current else best)
            preds.

Definition detectVehicleType (apiKey : string) (response : FetchOutcome)
    : Throws VehicleResult :=
  if decide (apiKey = ""%string) then inl "Please enter your Roboflow API key"%string
  else
    match response with
    | fetch_rejects message => inl message
    | fetch_response ok http_status statusText result =>
        if negb ok then inl ("Vehicle detection failed: " +:+ pretty http_status)
        else
          match predictions result with
          | Some (p :: ps) =>
              match bestPrediction (p :: ps) with
              | Some best =>
                  inr {| vehicle_type := mapClassToVehicleType (class best);
                         vr_confidence := confidence best;
                         vr_x := x best;
                         vr_y := y best;
                         vr_width := width best;
                         vr_height := height best;
                         vr_original_class := class best |}
              | None => inl "No vehicle detected in the image"%string
              end
          | _ => inl "No vehicle detected in the image"%string
          end
    end.

End roboflowAPI.

(** ** Allocation rules *)

Inductive Priority := closest | furthest | corner_edge.

Record Rule := {
  priority : Priority;
  allow_middle : bool
}.

Definition vehicleRules (vehicleType : VehicleType) : Rule :=
  match vehicleType with
  | car => {| priority := closest; allow_middle := true |}
  | motorcycle => {| priority := furthest; allow_middle := true |}
  | truck => {| priority := corner_edge; allow_middle := false |}
  | bus => {| priority := corner_edge; allow_middle := false |}
  | van => {| priority := corner_edge; allow_middle := false |}
  end.

(** The two reduce callbacks of the allocation step:
    [slot.distance_from_entrance < closest.distance_from_entrance ? slot : closest]
    and
    [slot.distance_from_entrance > furthest.distance_from_entrance ? slot : furthest]. *)
Definition pick_closer (closest slot : Slot) : Slot :=
  if Qlt_le_dec (distance_from_entrance slot) (distance_from_entrance closest)
  then slot else closest.

Definition pick_further (furthest slot : Slot) : Slot :=
  if Qlt_le_dec (distance_from_entrance furthest) (distance_from_entrance slot)
  then slot else furthest.

(** The filter [slot => slot.is_corner || slot.is_edge]. *)
Definition corner_or_edge (slot : Slot) : Prop := is_corner slot || is_edge slot = true.

#[global] Instance corner_or_edge_dec (slot : Slot) : Decision (corner_or_edge slot).
Proof. unfold corner_or_edge. apply _. Defined.

(** The value of [bestSlot] after the [if] chain on [rules.priority]; the
    list is the non-empty [emptySlots], so no reduce throws and [None] is
    only the [null] the variable starts with. *)
Definition bestSlot (rules : Rule) (emptySlots : list Slot) : option Slot :=
  match priority rules with
  | closest => JS.reduce pick_closer emptySlots
  | furthest => JS.reduce pick_further emptySlots
  | corner_edge =>
      let cornerEdgeSlots := filter corner_or_edge emptySlots in
      if (0 <? length cornerEdgeSlots)%nat
      then JS.reduce pick_further cornerEdgeSlots
      else head emptySlots
  end.

(** ** Paths *)

Record Path := {
  path_id : Z;
  path_name : string;
  distance : Q;
  tJunctions : Z;
  vehicleIntensity : option Z;
  score : option Q
}.

(** [generatePathsToSlot]: the callback of [Array.from] runs for
    i = 0, 1, ... in order and calls [Math.random] twice, first for the
    distance, then for the junction count. The sums are exact here; with
    the rounding of doubles the function is [Rounded.generatePathsToSlot]. *)
Definition generatePathsToSlot (random : nat -> Q) (slot : Slot) : list Path :=
  let slotRow := row slot in
  let pathCount := if slotRow <=? 1 then 4%nat else 3%nat in
  map (fun i : nat =>
         {| path_id := Z.of_nat i + 1;
            path_name := "Path " +:+ pretty (Z.of_nat i + 1);
            distance := (65 + inject_Z (Z.of_nat i * 25) + random (2 * i)%nat * 20)%Q;
            tJunctions := 1 + Z.of_nat i + Qfloor (random (2 * i + 1)%nat * 2);
            vehicleIntensity := None;
            score := None |})
      (seq 0 pathCount).

(** [generatePathsToSlot] in double arithmetic:
    [65 + (i * 25) + (Math.random() * 20)] adds the rounded product to the
    rounded sum and rounds again; [Math.floor(Math.random() * 2)] floors
    the rounded product. *)
Module Rounded.

Definition generatePathsToSlot (random : nat -> Q) (slot : Slot) : list Path :=
  let slotRow := row slot in
  let pathCount := if slotRow <=? 1 then 4%nat else 3%nat in
  map (fun i : nat =>
         {| path_id := Z.of_nat i + 1;
            path_name := "Path " +:+ pretty (Z.of_nat i + 1);
            distance :=
              Binary64.add (Binary64.add 65 (Binary64.mul (inject_Z (Z.of_nat i)) 25))
                (Binary64.mul (random (2 * i)%nat) 20);
            tJunctions :=
              1 + Z.of_nat i + Qfloor (Binary64.mul (random (2 * i + 1)%nat) 2);
            vehicleIntensity := None;
            score := None |})
      (seq 0 pathCount).

End Rounded.

(** ** Session state *)

Record AppState := {
  currentStep : Z;
  parkingImage : option string;
  vehicleImage : option string;
  detectedSlots : list Slot;
  detectedVehicleType : option VehicleResult;
  allocatedSlot : option Slot;
  pathsData : list Path;
  pathVehicleIntensities : gmap Z Z;
  optimalPath : option Path;
  isProcessing : bool;
  error : string;
  detectionImage : option ImageData;
  apiKey : string;
  showApiKey : bool
}.

(** The values given to [useState]. *)
Definition initialState : AppState :=
  {| currentStep := 1; parkingImage := None; vehicleImage := None;
     detectedSlots := []; detectedVehicleType := None; allocatedSlot := None;
     pathsData := []; pathVehicleIntensities := ∅; optimalPath := None;
     isProcessing := false; error := ""; detectionImage := None;
     apiKey := ""; showApiKey := false |}.

(** The state setters. *)
Definition setCurrentStep (v : Z) (s : AppState) : AppState :=
  {| currentStep := v; parkingImage := parkingImage s; vehicleImage := vehicleImage s;
     detectedSlots := detectedSlots s; detectedVehicleType := detectedVehicleType s;
     allocatedSlot := allocatedSlot s; pathsData := pathsData s;
     pathVehicleIntensities := pathVehicleIntensities s; optimalPath := optimalPath s;
     isProcessing := isProcessing s; error := error s;
     detectionImage := detectionImage s; apiKey := apiKey s; showApiKey := showApiKey s |}.

Definition setParkingImage (v : option string) (s : AppState) : AppState :=
  {| currentStep := currentStep s; parkingImage := v; vehicleImage := vehicleImage s;
     detectedSlots := detectedSlots s; detectedVehicleType := detectedVehicleType s;
     allocatedSlot := allocatedSlot s; pathsData := pathsData s;
     pathVehicleIntensities := pathVehicleIntensities s; optimalPath := optimalPath s;
     isProcessing := isProcessing s; error := error s;
     detectionImage := detectionImage s; apiKey := apiKey s; showApiKey := showApiKey s |}.

Definition setVehicleImage (v : option string) (s : AppState) : AppState :=
  {| currentStep := currentStep s; parkingImage := parkingImage s; vehicleImage := v;
     detectedSlots := detectedSlots s; detectedVehicleType := detectedVehicleType s;
     allocatedSlot := allocatedSlot s; pathsData := pathsData s;
     pathVehicleIntensities := pathVehicleIntensities s; optimalPath := optimalPath s;
     isProcessing := isProcessing s; error := error s;
     detectionImage := detectionImage s; apiKey := apiKey s; showApiKey := showApiKey s |}.

Definition setDetectedSlots (v : list Slot) (s : AppState) : AppState :=
  {| currentStep := currentStep s; parkingImage := parkingImage s; vehicleImage := vehicleImage s;
     detectedSlots := v; detectedVehicleType := detectedVehicleType s;
     allocatedSlot := allocatedSlot s; pathsData := pathsData s;
     pathVehicleIntensities := pathVehicleIntensities s; optimalPath := optimalPath s;
     isProcessing := isProcessing s; error := error s;
     detectionImage := detectionImage s; apiKey := apiKey s; showApiKey := showApiKey s |}.

Definition setDetectedVehicleType (v : option VehicleResult) (s : AppState) : AppState :=
  {| currentStep := currentStep s; parkingImage := parkingImage s; vehicleImage := vehicleImage s;
     detectedSlots := detectedSlots s; detectedVehicleType := v;
     allocatedSlot := allocatedSlot s; pathsData := pathsData s;
     pathVehicleIntensities := pathVehicleIntensities s; optimalPath := optimalPath s;
     isProcessing := isProcessing s; error := error s;
     detectionImage := detectionImage s; apiKey := apiKey s; showApiKey := showApiKey s |}.

Definition setAllocatedSlot (v : option Slot) (s : AppState) : AppState :=
  {| currentStep := currentStep s; parkingImage := parkingImage s; vehicleImage := vehicleImage s;
     detectedSlots := detectedSlots s; detectedVehicleType := detectedVehicleType s;
     allocatedSlot := v; pathsData := pathsData s;
     pathVehicleIntensities := pathVehicleIntensities s; optimalPath := optimalPath s;
     isProcessing := isProcessing s; error := error s;
     detectionImage := detectionImage s; apiKey := apiKey s; showApiKey := showApiKey s |}.

Definition setPathsData (v : list Path) (s : AppState) : AppState :=
  {| currentStep := currentStep s; parkingImage := parkingImage s; vehicleImage := vehicleImage s;
     detectedSlots := detectedSlots s; detectedVehicleType := detectedVehicleType s;
     allocatedSlot := allocatedSlot s; pathsData := v;
     pathVehicleIntensities := pathVehicleIntensities s; optimalPath := optimalPath s;
     isProcessing := isProcessing s; error := error s;
     detectionImage := detectionImage s; apiKey := apiKey s; showApiKey := showApiKey s |}.

Definition setPathVehicleIntensities (v : gmap Z Z) (s : AppState) : AppState :=
  {| currentStep := currentStep s; parkingImage := parkingImage s; vehicleImage := vehicleImage s;
     detectedSlots := detectedSlots s; detectedVehicleType := detectedVehicleType s;
     allocatedSlot := allocatedSlot s; pathsData := pathsData s;
     pathVehicleIntensities := v; optimalPath := optimalPath s;
     isProcessing := isProcessing s; error := error s;
     detectionImage := detectionImage s; apiKey := apiKey s; showApiKey := showApiKey s |}.

Definition setOptimalPath (v : option Path) (s : AppState) : AppState :=
  {| currentStep := currentStep s; parkingImage := parkingImage s; vehicleImage := vehicleImage s;
     detectedSlots := detectedSlots s; detectedVehicleType := detectedVehicleType s;
     allocatedSlot := allocatedSlot s; pathsData := pathsData s;
     pathVehicleIntensities := pathVehicleIntensities s; optimalPath := v;
     isProcessing := isProcessing s; error := error s;
     detectionImage := detectionImage s; apiKey := apiKey s; showApiKey := showApiKey s |}.

Definition setIsProcessing (v : bool) (s : AppState) : AppState :=
  {| currentStep := currentStep s; parkingImage := parkingImage s; vehicleImage := vehicleImage s;
     detectedSlots := detectedSlots s; detectedVehicleType := detectedVehicleType s;
     allocatedSlot := allocatedSlot s; pathsData := pathsData s;
     pathVehicleIntensities := pathVehicleIntensities s; optimalPath := optimalPath s;
     isProcessing := v; error := error s;
     detectionImage := detectionImage s; apiKey := apiKey s; showApiKey := showApiKey s |}.

Definition setError (v : string) (s : AppState) : AppState :=
  {| currentStep := currentStep s; parkingImage := parkingImage s; vehicleImage := vehicleImage s;
     detectedSlots := detectedSlots s; detectedVehicleType := detectedVehicleType s;
     allocatedSlot := allocatedSlot s; pathsData := pathsData s;
     pathVehicleIntensities := pathVehicleIntensities s; optimalPath := optimalPath s;
     isProcessing := isProcessing s; error := v;
     detectionImage := detectionImage s; apiKey := apiKey s; showApiKey := showApiKey s |}.

Definition setDetectionImage (v : option ImageData) (s : AppState) : AppState :=
  {| currentStep := currentStep s; parkingImage := parkingImage s; vehicleImage := vehicleImage s;
     detectedSlots := detectedSlots s; detectedVehicleType := detectedVehicleType s;
     allocatedSlot := allocatedSlot s; pathsData := pathsData s;
     pathVehicleIntensities := pathVehicleIntensities s; optimalPath := optimalPath s;
     isProcessing := isProcessing s; error := error s;
     detectionImage := v; apiKey := apiKey s; showApiKey := showApiKey s |}.

(** A handler is a sequence of setter calls on the state it started from. *)
Notation "s '|>' f" := (f s) (at level 45, left associativity, only parsing).

(** ** Handlers *)

(** Step 3, [detectParkingSlots]: the conversion of the stored image to a
    file cannot fail on a data URL and is left out; [response] is what the
    detection service answers. *)
Definition detectParkingSlots (sqrt : Q -> Q) (response : FetchOutcome)
    (st : AppState) : AppState :=
  match parkingImage st with
  | None => st
  | Some _ =>
      let st1 := st |> setIsProcessing true |> setError "" in
      let st2 :=
        match roboflowAPI.detectParkingSlots sqrt (apiKey st) response with
        | inr result =>
            let st' := st1 |> setDetectedSlots (slots result) in
            let st' :=
              match detection_image result with
              | Some img => st' |> setDetectionImage (Some img)
              | None => st'
              end in
            st' |> setCurrentStep 2
        | inl message =>
            st1 |> setError ("Failed to detect parking slots: " +:+ message)
        end in
      st2 |> setIsProcessing false
  end.

(** Step 5, [detectVehicleAndAllocate]. The [return] inside [try] still runs
    the [finally] block. *)
Definition detectVehicleAndAllocate (response : FetchOutcome) (random : nat -> Q)
    (st : AppState) : AppState :=
  match vehicleImage st with
  | None => st
  | Some _ =>
      let st1 := st |> setIsProcessing true |> setError "" in
      let st2 :=
        match roboflowAPI.detectVehicleType (apiKey st) response with
        | inr vehicleResult =>
            let st' := st1 |> setDetectedVehicleType (Some vehicleResult) in
            let emptySlots :=
              filter (fun slot => status slot = empty) (detectedSlots st) in
            if (length emptySlots =? 0)%nat then
              st' |> setError "No empty slots available"
            else
              let vehicleType := vehicle_type vehicleResult in
              let rules := vehicleRules vehicleType in
              let best := bestSlot rules emptySlots in
              let st' := st' |> setAllocatedSlot best in
              let st' :=
                match best with
                | Some slot => st' |> setPathsData (generatePathsToSlot random slot)
                | None => st'
                end in
              st' |> setCurrentStep 3
        | inl message =>
            st1 |> setError ("Failed to detect vehicle: " +:+ message)
        end in
      st2 |> setIsProcessing false
  end.

(** Step 6, [detectPathVehicleIntensities]: [forEach] visits the paths in
    order, each visit calling [Math.random] once and writing
    [intensities[path.id]]. The pair carries the object and the number of
    draws made so far. *)
Definition simulate_intensities (random : nat -> Q) (paths : list Path) : gmap Z Z :=
  fst (fold_left
         (fun (acc : gmap Z Z * nat) path =>
            let '(intensities, n) := acc in
            (<[path_id path := Qfloor (random n * 80) + 10]> intensities, S n))
         paths (∅, 0%nat)).

Definition detectPathVehicleIntensities (random : nat -> Q) (st : AppState) : AppState :=
  let intensities := simulate_intensities random (pathsData st) in
  st |> setIsProcessing true |> setError ""
     |> setPathVehicleIntensities intensities |> setCurrentStep 4
     |> setIsProcessing false.

(** [v || 0] on a number that may be absent ([undefined]) or NaN: both are
    falsy, and so is 0. *)
Definition or_zero (v : option Z) : Z :=
  match v with
  | Some n => if n =? 0 then 0 else n
  | None => 0
  end.

(** [null] converts to 0 where a number is compared. *)
Definition to_number (v : option Q) : Q := default 0%Q v.

(** The body of the [map] callback of [calculateOptimalPath], the score
    being the exact value; on doubles it is [Float64.with_score]. *)
Definition with_score (intensities : gmap Z Z) (path : Path) : Path :=
  let intensity := or_zero (intensities !! path_id path) in
  let score :=
    (distance path * (1 # 10) + inject_Z (tJunctions path) * (6 # 10)
     + inject_Z intensity * (3 # 10))%Q in
  {| path_id := path_id path;
     path_name := path_name path;
     distance := distance path;
     tJunctions := tJunctions path;
     vehicleIntensity := Some intensity;
     score := Some score |}.

(** [path.score < best.score ? path : best]. *)
Definition pick_lower_score (best path : Path) : Path :=
  if Qlt_le_dec (to_number (score path)) (to_number (score best)) then path else best.

(** Step 7, [calculateOptimalPath]; on an empty [pathsData] the reduce
    throws and no state is set. *)
Definition calculateOptimalPath (st : AppState) : Throws AppState :=
  let pathsWithScores := map (with_score (pathVehicleIntensities st)) (pathsData st) in
  match JS.reduce pick_lower_score pathsWithScores with
  | Some bestPath => inr (st |> setOptimalPath (Some bestPath) |> setCurrentStep 5)
  | None => inl "Reduce of empty array with no initial value"%string
  end.

(** Manual input of an intensity: [{...prev, [pathId]: parseInt(value) || 0}]. *)
Definition handleVehicleIntensityChange (pathId : Z) (value : string)
    (st : AppState) : AppState :=
  st |> setPathVehicleIntensities
          (<[pathId := or_zero (JS.parseInt value)]> (pathVehicleIntensities st)).

Definition resetSystem (st : AppState) : AppState :=
  st |> setCurrentStep 1 |> setParkingImage None |> setVehicleImage None
     |> setDetectedSlots [] |> setDetectedVehicleType None |> setAllocatedSlot None
     |> setPathsData [] |> setPathVehicleIntensities ∅ |> setOptimalPath None
     |> setDetectionImage None |> setError "".

(** ** Scoring on doubles *)

(** [calculateOptimalPath] on the binary64 numbers of the kernel: the
    distance, the junction count, the intensity and the score of a path are
    doubles, the products and sums are the rounded ones, and [<] is the
    comparison of doubles (false when either side is NaN). The state is the
    four fields the function reads and writes. *)
Module Float64.

Record Path := {
  path_id : Z;
  path_name : string;
  distance : float;
  tJunctions : float;
  vehicleIntensity : option float;
  score : option float
}.

Record State := {
  pathsData : list Path;
  pathVehicleIntensities : gmap Z float;
  optimalPath : option Path;
  currentStep : Z
}.

(** [v || 0]: [undefined], NaN and the two zeros are falsy. *)
Definition or_zero (v : option float) : float :=
  match v with
  | Some n => if is_nan n || is_zero n then 0%float else n
  | None => 0%float
  end.

(** [null] converts to 0 where a number is compared. *)
Definition to_number (v : option float) : float := default 0%float v.

(** The body of the [map] callback of [calculateOptimalPath]. *)
#[warnings="-inexact-float"] Definition with_score (intensities : gmap Z float)
    (path : Path) : Path :=
  let intensity := or_zero (intensities !! path_id path) in
  let score :=
    (distance path * 0.1 + tJunctions path * 0.6 + intensity * 0.3)%float in
  {| path_id := path_id path;
     path_name := path_name path;
     distance := distance path;
     tJunctions := tJunctions path;
     vehicleIntensity := Some intensity;
     score := Some score |}.

(** [path.score < best.score ? path : best]. *)
Definition pick_lower_score (best path : Path) : Path :=
  if (to_number (score path) <? to_number (score best))%float then path else best.

Definition calculateOptimalPath (st : State) : Throws State :=
  let pathsWithScores := map (with_score (pathVehicleIntensities st)) (pathsData st) in
  match JS.reduce pick_lower_score pathsWithScores with
  | Some bestPath =>
      inr {| pathsData := pathsData st;
             pathVehicleIntensities := pathVehicleIntensities st;
             optimalPath := Some bestPath;
             currentStep := 5 |}
  | None => inl "Reduce of empty array with no initial value"%string
  end.

End Float64.

(** ** The other handlers and the values the views compute *)

Definition setApiKey (v : string) (s : AppState) : AppState :=
  {| currentStep := currentStep s; parkingImage := parkingImage s; vehicleImage := vehicleImage s;
     detectedSlots := detectedSlots s; detectedVehicleType := detectedVehicleType s;
     allocatedSlot := allocatedSlot s; pathsData := pathsData s;
     pathVehicleIntensities := pathVehicleIntensities s; optimalPath := optimalPath s;
     isProcessing := isProcessing s; error := error s;
     detectionImage := detectionImage s; apiKey := v; showApiKey := showApiKey s |}.

Definition setShowApiKey (v : bool) (s : AppState) : AppState :=
  {| currentStep := currentStep s; parkingImage := parkingImage s; vehicleImage := vehicleImage s;
     detectedSlots := detectedSlots s; detectedVehicleType := detectedVehicleType s;
     allocatedSlot := allocatedSlot s; pathsData := pathsData s;
     pathVehicleIntensities := pathVehicleIntensities s; optimalPath := optimalPath s;
     isProcessing := isProcessing s; error := error s;
     detectionImage := detectionImage s; apiKey := apiKey s; showApiKey := v |}.

(** Step 1, [handleApiKeySubmit]. *)
Definition handleApiKeySubmit (st : AppState) : AppState :=
  if decide (JS.trim (apiKey st) = ""%string) then
    st |> setError "Please enter your Roboflow API key"
  else
    st |> setError "" |> setShowApiKey false.

(** Steps 2 and 4, the image uploads: [file] is [event.target.files[0]],
    read as a data URL when there is one. *)
Definition handleParkingImageUpload (file : option string) (st : AppState) : AppState :=
  match file with
  | Some dataUrl => st |> setParkingImage (Some dataUrl) |> setError ""
  | None => st
  end.

Definition handleVehicleImageUpload (file : option string) (st : AppState) : AppState :=
  match file with
  | Some dataUrl => st |> setVehicleImage (Some dataUrl) |> setError ""
  | None => st
  end.

Definition getSlotColor (slot : Slot) : string :=
  if decide (status slot = empty) then "#10b981" else "#ef4444".

Definition getIntensityColor (intensity : Z) : string :=
  if intensity <? 30 then "#10b981"
  else if intensity <? 70 then "#facc15"
  else "#ef4444".

(** [type.charAt(0).toUpperCase() + type.slice(1)]. *)
Definition formatVehicleType (type : string) : string :=
  JS.toUpperCase (JS.charAt0 type) +:+ JS.slice1 type.

(** The counts and the occupancy rate of the detection summary (before
    [toFixed]): [detectedSlots.filter(s => s.status === ...).length] and
    [length > 0 ? occupied / length * 100 : 0]. *)
Definition emptyCount (slots : list Slot) : nat :=
  length (filter (fun s => status s = empty) slots).

Definition occupiedCount (slots : list Slot) : nat :=
  length (filter (fun s => status s = occupied) slots).

Definition occupancyRate (slots : list Slot) : Q :=
  if (0 <? length slots)%nat then
    (inject_Z (Z.of_nat (occupiedCount slots)) / inject_Z (Z.of_nat (length slots)) * 100)%Q
  else 0%Q.

(** [Math.ceil(optimalPath.distance / 30)], the estimated minutes. *)
Definition estimatedTime (path : Path) : Z := Qceiling (distance path / 30).



(** The detection a slot was built from. *)
Definition slot_detection (s : Slot) : Prediction :=
  {| x := slot_x s; y := slot_y s; width := slot_width s; height := slot_height s;
     confidence := slot_confidence s; class := original_class s |}.

(** Two detections are taken to be in one row. *)
Definition same_row (a b : Prediction) : Prop := (Qabs (y a - y b) < 50)%Q.

(** The rows of a batch are separated: being in one row is transitive on
    the detections of the batch. *)
Definition rows_separated (predictions : list Prediction) : Prop :=
  forall a b c, a ∈ predictions -> b ∈ predictions -> c ∈ predictions ->
    same_row a b -> same_row b c -> same_row a c.

(** The object and the number of draws after the paths were visited from
    [intensities] with [n] draws made: the loop of [simulate_intensities]
    from an arbitrary point. *)
Definition simulate_from (random : nat -> Q) (paths : list Path)
    (intensities : gmap Z Z) (n : nat) : gmap Z Z * nat :=
  fold_left
    (fun (acc : gmap Z Z * nat) path =>
       let '(intensities, n) := acc in
       (<[path_id path := Qfloor (random n * 80) + 10]> intensities, S n))
    paths (intensities, n).

(** A string made of white space only (the empty string included). *)
Definition blank (s : string) : Prop :=
  Forall (fun c => JS.is_space c = true) (list_ascii_of_string s).

(** A session replayed from a reset: the two images are uploaded and the
    two detection steps run, on given answers of the service. *)
Definition replay (sqrt : Q -> Q) (parking vehicle : string)
    (slotsResponse vehicleResponse : FetchOutcome) (random : nat -> Q)
    (st : AppState) : AppState :=
  resetSystem st
    |> handleParkingImageUpload (Some parking)
    |> detectParkingSlots sqrt slotsResponse
    |> handleVehicleImageUpload (Some vehicle)
    |> detectVehicleAndAllocate vehicleResponse random.

(** ** Specification-side notions *)

(** [k] occurs in [s] as a substring. *)
Definition substring_of (k s : string) : Prop :=
  exists pre post : string, s = (pre +:+ k +:+ post).

(** Two labels equal up to the case of their ASCII letters. *)
Definition same_ignoring_case (a b : string) : Prop :=
  JS.toLowerCase a = JS.toLowerCase b.


(** The shape of the reduce callbacks on a rational key: keep the
    accumulator unless the next element has a strictly smaller (larger)
    key. *)
Definition pick_min {A} (key : A -> Q) (best cur : A) : A :=
  if Qlt_le_dec (key cur) (key best) then cur else best.

Definition pick_max {A} (key : A -> Q) (best cur : A) : A :=
  if Qlt_le_dec (key best) (key cur) then cur else best.

(** Under the comparator [cmp], [a] may stand immediately before [b]. *)
Definition in_order {A} (cmp : A -> A -> Q) (a b : A) : Prop := (cmp a b <= 0)%Q.

(** [r] is at index [i] of [l], none of the elements with [P] is better than
    [r], and [r] is better than each of those before index [i]. *)
Definition first_best_among {A} (better : A -> A -> Prop) (P : A -> Prop)
    (l : list A) (r : A) : Prop :=
  exists i : nat, l !! i = Some r /\ P r
    /\ (forall j a, l !! j = Some a -> P a -> ~ better a r)
    /\ (forall j a, (j < i)%nat -> l !! j = Some a -> P a -> better r a).

(** [r] is the first element of [l], among those satisfying [P], whose key
    is minimal (resp. maximal): it occurs at some index [i], no element
    with [P] has a smaller (larger) key, and every element with [P] before
    index [i] has a strictly larger (smaller) key. *)
Definition first_min_among {A} (P : A -> Prop) (key : A -> Q) (l : list A) (r : A) : Prop :=
  exists i : nat, l !! i = Some r /\ P r
    /\ (forall j a, l !! j = Some a -> P a -> (key r <= key a)%Q)
    /\ (forall j a, (j < i)%nat -> l !! j = Some a -> P a -> (key r < key a)%Q).

Definition first_max_among {A} (P : A -> Prop) (key : A -> Q) (l : list A) (r : A) : Prop :=
  exists i : nat, l !! i = Some r /\ P r
    /\ (forall j a, l !! j = Some a -> P a -> (key a <= key r)%Q)
    /\ (forall j a, (j < i)%nat -> l !! j = Some a -> P a -> (key a < key r)%Q).

Definition any {A} (_ : A) : Prop := True.

#[global] Instance any_dec {A} (a : A) : Decision (any a) := left I.

(** Every value of [Math.random] lies in [0, 1). *)
Definition unit_draws (random : nat -> Q) : Prop :=
  forall n : nat, (0 <= random n < 1)%Q.

(** What [resetSystem] leaves: the initial values, but for the API key
    fields and the processing flag, which it does not touch. *)
Definition cleared (st : AppState) : AppState :=
  {| currentStep := 1; parkingImage := None; vehicleImage := None;
     detectedSlots := []; detectedVehicleType := None; allocatedSlot := None;
     pathsData := []; pathVehicleIntensities := ∅; optimalPath := None;
     isProcessing := isProcessing st; error := ""; detectionImage := None;
     apiKey := apiKey st; showApiKey := showApiKey st |}.

(** Every value of [Math.random] is a double in [0, 1). *)
Definition double_draws (random : nat -> Q) : Prop :=
  forall n : nat, Binary64.representable (random n) /\ (0 <= random n < 1)%Q.




(** The string holds ASCII characters only; on these the case mappings
    of the embedding are those of the engine. *)
Fixpoint is_ascii (s : string) : bool :=
  match s with
  | EmptyString => true
  | String c s' => (N_of_ascii c <? 128)%N && is_ascii s'
  end.

(** ** Inputs of the worked examples *)

(** An empty slot in the interior of the grid, at a given distance. *)
Definition interior_slot (n : Z) (d : Q) : Slot :=
  {| slot_number := n; status := empty; row := 1; col := n - 9;
     slot_x := 0; slot_y := 0; slot_width := 0; slot_height := 0;
     slot_confidence := 90; original_class := "empty";
     is_corner := false; is_edge := false; distance_from_entrance := d |}.

(** Three empty slots at distances 50, 120 and 80. *)
Definition example_slots : list Slot :=
  [interior_slot 10 50; interior_slot 11 120; interior_slot 12 80].

Definition example_path (i : Z) (d : Q) (j : Z) : Path :=
  {| path_id := i; path_name := "Path " +:+ pretty i; distance := d;
     tJunctions := j; vehicleIntensity := None; score := None |}.

(** Two paths: distance 65, 1 junction, intensity 20; distance 90,
    3 junctions, intensity 60. *)
Definition example_paths : list Path := [example_path 1 65 1; example_path 2 90 3].

Definition example_intensities : gmap Z Z := <[2 := 60]> (<[1 := 20]> ∅).

Definition example_state : AppState :=
  initialState |> setPathsData example_paths
               |> setPathVehicleIntensities example_intensities
               |> setCurrentStep 4.

(** The scores of the scored list. *)
Definition scores (paths : list Path) : list Q :=
  map (fun path => to_number (score path)) paths.

Definition occupied_slot (n : Z) : Slot :=
  {| slot_number := n; status := occupied; row := 0; col := n - 1;
     slot_x := 0; slot_y := 0; slot_width := 0; slot_height := 0;
     slot_confidence := 90; original_class := "occupied";
     is_corner := false; is_edge := true; distance_from_entrance := 100 |}.

Definition example_prediction (px py : Q) (label : string) : Prediction :=
  {| x := px; y := py; width := 40; height := 80; confidence := 90; class := label |}.

(** A vehicle image was uploaded, the API key is set, and both detected
    slots are occupied. *)
Definition full_lot_state : AppState :=
  {| currentStep := 2; parkingImage := Some "data:image/jpeg;base64,lot";
     vehicleImage := Some "data:image/jpeg;base64,vehicle";
     detectedSlots := [occupied_slot 1; occupied_slot 2];
     detectedVehicleType := None; allocatedSlot := None;
     pathsData := []; pathVehicleIntensities := ∅; optimalPath := None;
     isProcessing := false; error := ""; detectionImage := None;
     apiKey := "key"; showApiKey := false |}.

(** The vehicle detector answers with one prediction. *)
Definition vehicle_response (label : string) : FetchOutcome :=
  fetch_response true 200 "OK"
    {| predictions := Some [example_prediction 320 240 label]; image := None |}.

(** A stream of draws that are all one half. *)
Definition half_draws : nat -> Q := fun _ => (1 # 2)%Q.

(** A batch of three detections: two in one row, read right to left, and
    one in a row below. *)
Definition example_predictions : list Prediction :=
  [example_prediction 300 100 "occupied"; example_prediction 100 120 "empty";
   example_prediction 200 300 "empty"].

(** Three detections on a slanted line: each is in the row of the next,
    but the first and the last are not in one row. *)
Definition slanted_predictions : list Prediction :=
  [example_prediction 10 0 "empty"; example_prediction 5 40 "empty";
   example_prediction 0 80 "empty"].

(** A detected lot with one occupied and two empty slots, a vehicle image
    uploaded and the API key set. *)
Definition open_lot_state : AppState :=
  {| currentStep := 2; parkingImage := Some "data:image/jpeg;base64,lot";
     vehicleImage := Some "data:image/jpeg;base64,vehicle";
     detectedSlots := [occupied_slot 1; interior_slot 10 50; interior_slot 11 120];
     detectedVehicleType := None; allocatedSlot := None;
     pathsData := []; pathVehicleIntensities := ∅; optimalPath := None;
     isProcessing := false; error := ""; detectionImage := None;
     apiKey := "key"; showApiKey := false |}.



(** A double just below 1, drawn every time: 1 - 2^-52, the largest
    multiple of 2^-52 below 1. *)
Definition top_draws : nat -> Q := fun _ => (1 - 2 ^ (-52))%Q.



(** The rational a finite double of the kernel stands for. *)
Definition of_kernel (f : float) : option Q :=
  match Prim2SF f with
  | S754_zero _ => Some 0%Q
  | S754_finite s m e => Some ((if s then -1 else 1) * inject_Z (Z.pos m) * 2 ^ e)%Q
  | _ => None
  end.

Definition agree (f : float) (q : Q) : bool :=
  match of_kernel f with
  | Some q' => Qeq_bool q' q
  | None => false
  end.

(** Operations computed by the kernel on doubles, each beside the same
    operation in [Binary64]: the three weights, the products and sums of
    the two scores of [near_tie_state], the distance of a path for the
    draw [top_draws], and roundings at ties, in the subnormal range and
    across a power of two. *)
#[warnings="-inexact-float"] Definition kernel_samples : list (float * Q) :=
  [ (0.1, Binary64.round (1 # 10));
    (0.6, Binary64.round (6 # 10));
    (0.3, Binary64.round (3 # 10));
    (65 * 0.1, Binary64.mul 65 (Binary64.round (1 # 10)));
    (30 * 0.3, Binary64.mul 30 (Binary64.round (3 # 10)));
    (65 * 0.1 + 1 * 0.6,
     Binary64.add (Binary64.mul 65 (Binary64.round (1 # 10)))
       (Binary64.mul 1 (Binary64.round (6 # 10))));
    (65 * 0.1 + 1 * 0.6 + 30 * 0.3,
     Binary64.add
       (Binary64.add (Binary64.mul 65 (Binary64.round (1 # 10)))
          (Binary64.mul 1 (Binary64.round (6 # 10))))
       (Binary64.mul 30 (Binary64.round (3 # 10))));
    (95 * 0.1 + 2 * 0.6 + 18 * 0.3,
     Binary64.add
       (Binary64.add (Binary64.mul 95 (Binary64.round (1 # 10)))
          (Binary64.mul 2 (Binary64.round (6 # 10))))
       (Binary64.mul 18 (Binary64.round (3 # 10))));
    (0x1.ffffffffffffep-1 * 20, Binary64.mul (top_draws 0%nat) 20);
    (65 + 0 * 25 + 0x1.ffffffffffffep-1 * 20,
     Binary64.add (Binary64.add 65 (Binary64.mul 0 25))
       (Binary64.mul (top_draws 0%nat) 20));
    (65 + 3 * 25 + 0x1.ffffffffffffep-1 * 20,
     Binary64.add (Binary64.add 65 (Binary64.mul 3 25))
       (Binary64.mul (top_draws 0%nat) 20));
    (65 + 1 * 25 + 0x1.fffffffffffffp-1 * 20,
     Binary64.add (Binary64.add 65 (Binary64.mul 1 25))
       (Binary64.mul (1 - 2 ^ (-53)) 20));
    (0x1.ffffffffffffep-1 * 2, Binary64.mul (top_draws 0%nat) 2);
    (0.3 * 20, Binary64.mul (Binary64.round (3 # 10)) 20);
    (0.3 * 80, Binary64.mul (Binary64.round (3 # 10)) 80);
    (0x1p-1074 * 0.5, Binary64.mul (2 ^ (-1074)) (1 # 2));
    (0x1p-1074 * 0.75, Binary64.mul (2 ^ (-1074)) (3 # 4));
    (0x1p-1074 * 1.5, Binary64.mul (2 ^ (-1074)) (3 # 2));
    (0x1p-1074 * 2.5, Binary64.mul (2 ^ (-1074)) (5 # 2));
    (0x1.fffffffffffffp-1 * 0x1.fffffffffffffp-1,
     Binary64.mul (1 - 2 ^ (-53)) (1 - 2 ^ (-53)));
    (1 + 0x1p-53, Binary64.add 1 (2 ^ (-53)));
    (1 + 0x1.8p-53, Binary64.add 1 (3 * 2 ^ (-54)));
    (0.1 + 0.2, Binary64.add (Binary64.round (1 # 10)) (Binary64.round (2 # 10)));
    (0.1 - 0.3, Binary64.add (Binary64.round (1 # 10)) (- Binary64.round (3 # 10))) ]%float.

(** * Properties *)

(** ** Strings *)

Lemma append_cons (c : ascii) (a b : string) :
  String c a +:+ b = String c (a +:+ b).
Proof. reflexivity. Qed.

Lemma append_nil (b : string) : "" +:+ b = b.
Proof. reflexivity. Qed.

Lemma prefix_app (k s : string) :
  String.prefix k s = true <-> exists post : string, s = k +:+ post.
Proof.
  revert s; induction k as [|c k IH]; intros s; simpl.
  - split; [intros _; exists s; reflexivity | intros _; destruct s; reflexivity].
  - destruct s as [|c' s]; simpl.
    + split; [discriminate | intros [post H]; discriminate].
    + destruct (Ascii.ascii_dec c c') as [->|Hne].
      * rewrite IH. split; intros [post H]; exists post;
          rewrite append_cons in *; congruence.
      * split; [discriminate | intros [post H]; rewrite append_cons in H; congruence].
Qed.

Lemma includes_substring (s k : string) :
  JS.includes s k = true <-> substring_of k s.
Proof.
  unfold substring_of.
  induction s as [|c s IH]; cbn [JS.includes].
  - rewrite orb_false_r, prefix_app. split.
    + intros [post H]. exists ""%string, post. exact H.
    + intros [[|c pre] [post H]]; [exists post; exact H | discriminate].
  - rewrite orb_true_iff, prefix_app, IH. split.
    + intros [[post H] | [pre [post H]]].
      * exists ""%string, post. exact H.
      * exists (String c pre), post. rewrite append_cons. congruence.
    + intros [[|c' pre] [post H]].
      * left. exists post. exact H.
      * right. exists pre, post. rewrite append_cons in H. congruence.
Qed.

Lemma includes_not_substring (s k : string) :
  JS.includes s k = false <-> ~ substring_of k s.
Proof.
  rewrite <- includes_substring. destruct (JS.includes s k); split; try easy.
Qed.

(** ** Vehicle classifier adapter *)

Lemma first_match_at (lowerClass : string) (pre post : list (string * VehicleType))
    (key : string) (value : VehicleType) :
  JS.includes lowerClass key = true ->
  (forall key' value', In (key', value') pre -> JS.includes lowerClass key' = false) ->
  first_match lowerClass (pre ++ (key, value) :: post) = Some value.
Proof.
  intros Hkey. induction pre as [|[k v] pre IH]; intros Hpre; simpl.
  - rewrite Hkey. reflexivity.
  - rewrite (Hpre k v) by (left; reflexivity).
    apply IH. intros k' v' Hin. apply (Hpre k' v'). right. exact Hin.
Qed.

Lemma first_match_none (lowerClass : string) (entries : list (string * VehicleType)) :
  (forall key value, In (key, value) entries -> JS.includes lowerClass key = false) ->
  first_match lowerClass entries = None.
Proof.
  induction entries as [|[k v] entries IH]; intros H; simpl.
  - reflexivity.
  - rewrite (H k v) by (left; reflexivity).
    apply IH. intros k' v' Hin. apply (H k' v'). right. exact Hin.
Qed.

(** C7. For every raw label, [mapClassToVehicleType] matches the lowered
    label against the ordered table car, sedan, hatchback, suv -> car;
    truck, pickup -> truck; bus -> bus; motorcycle, motorbike, bike,
    scooter -> motorcycle; van, minivan -> van: it returns the value of the
    first key that occurs in the lowered label as a substring, and [car]
    when no key occurs; labels equal up to case get the same category; and
    "Pickup Truck" maps to truck, "Scooter-X1" to motorcycle, "Golf Cart"
    to car. *)
Theorem mapClassToVehicleType_first_key_or_car (detectedClass : string) :
  classMapping =
    [ ("car", car); ("sedan", car); ("hatchback", car); ("suv", car);
      ("truck", truck); ("pickup", truck); ("bus", bus);
      ("motorcycle", motorcycle); ("motorbike", motorcycle);
      ("bike", motorcycle); ("scooter", motorcycle);
      ("van", van); ("minivan", van) ]%string
  /\ (forall pre key value post,
        classMapping = pre ++ (key, value) :: post ->
        substring_of key (JS.toLowerCase detectedClass) ->
        (forall key' value', In (key', value') pre ->
           ~ substring_of key' (JS.toLowerCase detectedClass)) ->
        mapClassToVehicleType detectedClass = value)
  /\ ((forall key value, In (key, value) classMapping ->
         ~ substring_of key (JS.toLowerCase detectedClass)) ->
      mapClassToVehicleType detectedClass = car)
  /\ (forall other, same_ignoring_case detectedClass other ->
        mapClassToVehicleType other = mapClassToVehicleType detectedClass)
  /\ mapClassToVehicleType "Pickup Truck" = truck
  /\ mapClassToVehicleType "Scooter-X1" = motorcycle
  /\ mapClassToVehicleType "Golf Cart" = car.
Proof.
  split; [reflexivity|].
  split.
  { intros pre key value post Htable Hkey Hpre.
    unfold mapClassToVehicleType. rewrite Htable.
    rewrite first_match_at; [reflexivity| |].
    - apply includes_substring. exact Hkey.
    - intros k' v' Hin. apply includes_not_substring. exact (Hpre k' v' Hin). }
  split.
  { intros Hnone. unfold mapClassToVehicleType.
    rewrite first_match_none; [reflexivity|].
    intros k v Hin. apply includes_not_substring. exact (Hnone k v Hin). }
  split.
  { intros other Hsame. unfold mapClassToVehicleType.
    unfold same_ignoring_case in Hsame. rewrite Hsame. reflexivity. }
  repeat split; vm_compute; reflexivity.
Qed.

(** ** Reductions that keep the first best element *)

Section FirstBest.

Context {A : Type} (better : A -> A -> Prop) (pick : A -> A -> A).

Hypothesis pick_better : forall best cur, better cur best -> pick best cur = cur.
Hypothesis pick_keep : forall best cur, ~ better cur best -> pick best cur = best.
Hypothesis better_dec : forall a b, better a b \/ ~ better a b.
Hypothesis better_asym : forall a b, better a b -> ~ better b a.
Hypothesis better_chain : forall a b c, better c b -> ~ better a b -> better c a.

Lemma first_best_snoc (pre : list A) (acc c : A) :
  first_best_among better any pre acc ->
  first_best_among better any (pre ++ [c]) (pick acc c).
Proof.
  intros (i & Hi & _ & Hnone & Hbefore).
  destruct (better_dec c acc) as [Hc | Hc].
  - rewrite (pick_better _ _ Hc).
    exists (length pre). split; [apply list_lookup_middle; reflexivity|].
    split; [exact I|]. split.
    + intros j a Hj _. apply lookup_app_Some in Hj as [Hj | [Hle Hj]].
      * apply better_asym. apply (better_chain a acc c Hc). exact (Hnone j a Hj I).
      * destruct (j - length pre)%nat; simpl in Hj; [|discriminate].
        injection Hj as <-. intros Hcc. exact (better_asym _ _ Hcc Hcc).
    + intros j a Hlt Hj _. rewrite lookup_app_l in Hj by exact Hlt.
      apply (better_chain a acc c Hc). exact (Hnone j a Hj I).
  - rewrite (pick_keep _ _ Hc).
    exists i. split; [apply lookup_app_l_Some; exact Hi|].
    split; [exact I|]. split.
    + intros j a Hj _. apply lookup_app_Some in Hj as [Hj | [Hle Hj]].
      * exact (Hnone j a Hj I).
      * destruct (j - length pre)%nat; simpl in Hj; [|discriminate].
        injection Hj as <-. exact Hc.
    + intros j a Hlt Hj _. apply (Hbefore j a Hlt); [|exact I].
      apply lookup_lt_Some in Hi.
      rewrite lookup_app_l in Hj by lia. exact Hj.
Qed.

Lemma first_best_fold (l pre : list A) (acc : A) :
  first_best_among better any pre acc ->
  first_best_among better any (pre ++ l) (fold_left pick l acc).
Proof.
  revert pre acc. induction l as [|c l IH]; intros pre acc Hacc; simpl.
  - rewrite app_nil_r. exact Hacc.
  - replace (pre ++ c :: l) with ((pre ++ [c]) ++ l)
      by (rewrite <- app_assoc; reflexivity).
    apply IH. apply first_best_snoc. exact Hacc.
Qed.

Lemma reduce_first_best (l : list A) (r : A) :
  JS.reduce pick l = Some r -> first_best_among better any l r.
Proof.
  destruct l as [|a l]; simpl; [discriminate|].
  intros [= <-]. apply (first_best_fold l [a] a).
  exists 0%nat. split; [reflexivity|]. split; [exact I|]. split.
  - intros [|j] b Hj _; simpl in Hj; [|discriminate].
    injection Hj as <-. intros Haa. exact (better_asym _ _ Haa Haa).
  - intros j b Hlt. lia.
Qed.

(** The first best element of the sublist of the elements with [P] is the
    first best among the elements of the whole list that satisfy [P]. *)
Lemma first_best_filter (P : A -> Prop) `{!forall a, Decision (P a)}
    (l : list A) (r : A) :
  first_best_among better any (filter P l) r -> first_best_among better P l r.
Proof.
  revert r. induction l as [|b l IH]; intros r (i & Hi & _ & Hnone & Hbefore).
  - rewrite filter_nil in Hi. discriminate.
  - destruct (decide (P b)) as [Hb | Hb].
    + rewrite filter_cons_True in Hi, Hnone, Hbefore by exact Hb.
      destruct i as [|i]; simpl in Hi.
      * injection Hi as <-. exists 0%nat.
        split; [reflexivity|]. split; [exact Hb|]. split; [|intros; lia].
        intros [|j] a Hj Ha; simpl in Hj.
        -- injection Hj as <-. exact (Hnone 0%nat b eq_refl I).
        -- assert (Hin : a ∈ filter P l).
           { apply list_elem_of_filter. split; [exact Ha|].
             apply list_elem_of_lookup. exists j. exact Hj. }
           apply list_elem_of_lookup in Hin as [k Hk].
           exact (Hnone (S k) a Hk I).
      * destruct (IH r) as (i0 & Hi0 & Hr & Hnone0 & Hbefore0).
        { exists i. split; [exact Hi|]. split; [exact I|]. split.
          - intros j a Hj _. exact (Hnone (S j) a Hj I).
          - intros j a Hlt Hj _. apply (Hbefore (S j) a); [lia|exact Hj|exact I]. }
        exists (S i0). split; [exact Hi0|]. split; [exact Hr|]. split.
        -- intros [|j] a Hj Ha; simpl in Hj.
           ++ injection Hj as <-. exact (Hnone 0%nat b eq_refl I).
           ++ exact (Hnone0 j a Hj Ha).
        -- intros [|j] a Hlt Hj Ha; simpl in Hj.
           ++ injection Hj as <-. apply (Hbefore 0%nat b); [lia|reflexivity|exact I].
           ++ apply (Hbefore0 j a); [lia|exact Hj|exact Ha].
    + rewrite filter_cons_False in Hi, Hnone, Hbefore by exact Hb.
      destruct (IH r) as (i0 & Hi0 & Hr & Hnone0 & Hbefore0).
      { exists i. split; [exact Hi|]. split; [exact I|]. split; assumption. }
      exists (S i0). split; [exact Hi0|]. split; [exact Hr|]. split.
      * intros [|j] a Hj Ha; simpl in Hj.
        -- injection Hj as <-. contradiction.
        -- exact (Hnone0 j a Hj Ha).
      * intros [|j] a Hlt Hj Ha; simpl in Hj.
        -- injection Hj as <-. contradiction.
        -- apply (Hbefore0 j a); [lia|exact Hj|exact Ha].
Qed.

End FirstBest.

(** The two instances on rational keys: keep the first minimum, keep the
    first maximum. *)
Section RationalKeys.

Context {A : Type} (key : A -> Q).

Lemma reduce_nonempty (pick : A -> A -> A) (l : list A) :
  l <> [] -> exists r, JS.reduce pick l = Some r.
Proof. destruct l as [|a l]; [congruence | intros _; eexists; reflexivity]. Qed.

Lemma reduce_pick_min (P : A -> Prop) `{!forall a, Decision (P a)}
    (l : list A) (r : A) :
  JS.reduce (pick_min key) (filter P l) = Some r -> first_min_among P key l r.
Proof.
  intros Hred.
  apply (reduce_first_best (fun a b => (key a < key b)%Q)) in Hred.
  - apply first_best_filter in Hred.
    destruct Hred as (i & Hi & Hr & Hnone & Hbefore).
    exists i. split; [exact Hi|]. split; [exact Hr|]. split.
    + intros j a Hj Ha. apply Qnot_lt_le. exact (Hnone j a Hj Ha).
    + exact Hbefore.
  - intros best cur Hlt. cbv beta in Hlt. unfold pick_min.
    destruct (Qlt_le_dec (key cur) (key best)); [reflexivity | exfalso; lra].
  - intros best cur Hlt. cbv beta in Hlt. unfold pick_min.
    destruct (Qlt_le_dec (key cur) (key best)); [contradiction | reflexivity].
  - intros a b. cbv beta.
    destruct (Qlt_le_dec (key a) (key b)); [left; assumption | right; lra].
  - intros a b Hab Hba. cbv beta in Hab, Hba. lra.
  - intros a b c Hcb Hab. cbv beta in Hcb, Hab. apply Qnot_lt_le in Hab. lra.
Qed.

Lemma reduce_pick_max (P : A -> Prop) `{!forall a, Decision (P a)}
    (l : list A) (r : A) :
  JS.reduce (pick_max key) (filter P l) = Some r -> first_max_among P key l r.
Proof.
  intros Hred.
  apply (reduce_first_best (fun a b => (key b < key a)%Q)) in Hred.
  - apply first_best_filter in Hred.
    destruct Hred as (i & Hi & Hr & Hnone & Hbefore).
    exists i. split; [exact Hi|]. split; [exact Hr|]. split.
    + intros j a Hj Ha. apply Qnot_lt_le. exact (Hnone j a Hj Ha).
    + exact Hbefore.
  - intros best cur Hlt. cbv beta in Hlt. unfold pick_max.
    destruct (Qlt_le_dec (key best) (key cur)); [reflexivity | exfalso; lra].
  - intros best cur Hlt. cbv beta in Hlt. unfold pick_max.
    destruct (Qlt_le_dec (key best) (key cur)); [contradiction | reflexivity].
  - intros a b. cbv beta.
    destruct (Qlt_le_dec (key b) (key a)); [left; assumption | right; lra].
  - intros a b Hab Hba. cbv beta in Hab, Hba. lra.
  - intros a b c Hcb Hab. cbv beta in Hcb, Hab. apply Qnot_lt_le in Hab. lra.
Qed.

Lemma filter_any (l : list A) : filter any l = l.
Proof.
  induction l as [|a l IH]; [reflexivity|].
  rewrite filter_cons_True by exact I. rewrite IH. reflexivity.
Qed.

End RationalKeys.

(** ** The order of doubles *)









(** ** Reductions that keep the first best element, on comparable elements *)

(** As [FirstBest], for a comparison that chains only through the elements
    satisfying [ok] (for doubles: those that are not NaN). *)
Section FirstBestOn.

Context {A : Type} (ok : A -> Prop) (better : A -> A -> Prop) (pick : A -> A -> A).

Hypothesis pick_better : forall best cur, better cur best -> pick best cur = cur.
Hypothesis pick_keep : forall best cur, ~ better cur best -> pick best cur = best.
Hypothesis better_dec : forall a b, better a b \/ ~ better a b.
Hypothesis better_asym : forall a b, better a b -> ~ better b a.
Hypothesis better_chain :
  forall a b c, ok a -> better c b -> ~ better a b -> better c a.




End FirstBestOn.

(** ** Allocation policy engine *)

Lemma pick_closer_is_pick_min :
  pick_closer = pick_min distance_from_entrance.
Proof. reflexivity. Qed.

Lemma pick_further_is_pick_max :
  pick_further = pick_max distance_from_entrance.
Proof. reflexivity. Qed.

Lemma bestSlot_closest (emptySlots : list Slot) (slot : Slot) :
  JS.reduce pick_closer emptySlots = Some slot ->
  first_min_among any distance_from_entrance emptySlots slot.
Proof.
  intros Hred. apply (reduce_pick_min _ any).
  rewrite filter_any. exact Hred.
Qed.

Lemma bestSlot_furthest (emptySlots : list Slot) (slot : Slot) :
  JS.reduce pick_further emptySlots = Some slot ->
  first_max_among any distance_from_entrance emptySlots slot.
Proof.
  intros Hred. apply (reduce_pick_max _ any).
  rewrite filter_any. exact Hred.
Qed.

(** C1. For every canonical category and every non-empty list of empty
    slots the allocation returns a slot, and it is the one the rule of the
    category names: for car the first slot of minimal
    [distance_from_entrance]; for motorcycle the first slot of maximal
    distance; for truck, bus and van the first corner-or-edge slot of
    maximal distance among the corner-or-edge slots when there is one, and
    the first slot of the list when there is none. "First" is the position
    in the list, so equal distances are resolved by encounter order. *)
Theorem bestSlot_follows_category_rule (vehicleType : VehicleType)
    (emptySlots : list Slot) :
  emptySlots <> [] ->
  exists slot : Slot,
    bestSlot (vehicleRules vehicleType) emptySlots = Some slot
    /\ match vehicleType with
       | car => first_min_among any distance_from_entrance emptySlots slot
       | motorcycle => first_max_among any distance_from_entrance emptySlots slot
       | truck | bus | van =>
           (Exists corner_or_edge emptySlots ->
            first_max_among corner_or_edge distance_from_entrance emptySlots slot)
           /\ (Forall (fun s => ~ corner_or_edge s) emptySlots ->
               head emptySlots = Some slot)
       end.
Proof.
  intros Hne.
  assert (Hcorner :
    exists slot : Slot,
      bestSlot {| priority := corner_edge; allow_middle := false |} emptySlots = Some slot
      /\ (Exists corner_or_edge emptySlots ->
          first_max_among corner_or_edge distance_from_entrance emptySlots slot)
      /\ (Forall (fun s => ~ corner_or_edge s) emptySlots ->
          head emptySlots = Some slot)).
  { unfold bestSlot; simpl.
    destruct (filter corner_or_edge emptySlots) as [|c cs] eqn:Hfilter; simpl.
    - destruct emptySlots as [|s ss]; [congruence|].
      exists s. split; [reflexivity|]. split; [|reflexivity].
      intros Hex. apply Exists_exists in Hex as (a & Hin & Ha).
      assert (Hmem : a ∈ filter corner_or_edge (s :: ss)).
      { apply list_elem_of_filter. split; [exact Ha | exact Hin]. }
      rewrite Hfilter in Hmem. inversion Hmem.
    - eexists. split; [reflexivity|]. split.
      + intros _. apply (reduce_pick_max _ corner_or_edge).
        rewrite Hfilter. reflexivity.
      + intros Hall. exfalso.
        assert (Hmem : c ∈ filter corner_or_edge emptySlots)
          by (rewrite Hfilter; left).
        apply list_elem_of_filter in Hmem as [Hc Hin].
        rewrite Forall_forall in Hall. exact (Hall c Hin Hc). }
  destruct vehicleType; try exact Hcorner.
  - destruct (reduce_nonempty pick_closer emptySlots Hne) as [slot Hslot].
    exists slot. split; [exact Hslot|]. apply bestSlot_closest. exact Hslot.
  - destruct (reduce_nonempty pick_further emptySlots Hne) as [slot Hslot].
    exists slot. split; [exact Hslot|]. apply bestSlot_furthest. exact Hslot.
Qed.

Lemma bestSlot_follows_category_rule_witness :
  exists slot : Slot,
    bestSlot (vehicleRules car) example_slots = Some slot
    /\ first_min_among any distance_from_entrance example_slots slot.
Proof.
  apply (bestSlot_follows_category_rule car example_slots). discriminate.
Defined.

(** The allocation example of the specification: distances 50, 120, 80. *)
Example bestSlot_example_car :
  bestSlot (vehicleRules car) example_slots = Some (interior_slot 10 50).
Proof. reflexivity. Qed.

Example bestSlot_example_motorcycle :
  bestSlot (vehicleRules motorcycle) example_slots = Some (interior_slot 11 120).
Proof. reflexivity. Qed.

Example bestSlot_example_truck :
  bestSlot (vehicleRules truck) example_slots = Some (interior_slot 10 50).
Proof. reflexivity. Qed.

(** The allocation step of the handler stores what [bestSlot] returns on
    the empty slots of the state, generates the paths to it and moves to
    step 3. *)
Lemma detectVehicleAndAllocate_allocates (response : FetchOutcome)
    (random : nat -> Q) (st : AppState) (vehicleResult : VehicleResult) :
  is_Some (vehicleImage st) ->
  roboflowAPI.detectVehicleType (apiKey st) response = inr vehicleResult ->
  filter (fun slot => status slot = empty) (detectedSlots st) <> [] ->
  let best := bestSlot (vehicleRules (vehicle_type vehicleResult))
                (filter (fun slot => status slot = empty) (detectedSlots st)) in
  let st' := detectVehicleAndAllocate response random st in
  allocatedSlot st' = best
  /\ pathsData st' = match best with
                     | Some slot => generatePathsToSlot random slot
                     | None => pathsData st
                     end
  /\ currentStep st' = 3
  /\ error st' = ""%string.
Proof.
  intros [img Himg] Hdetect Hne best st'. subst best st'.
  unfold detectVehicleAndAllocate. rewrite Himg, Hdetect.
  destruct (filter (fun slot => status slot = empty) (detectedSlots st))
    as [|s ss] eqn:Hempty; [congruence|].
  cbn [length Nat.eqb].
  destruct (bestSlot (vehicleRules (vehicle_type vehicleResult)) (s :: ss));
    repeat split.
Qed.

(** ** Path scoring and selection *)

Lemma or_zero_Some (v : Z) : or_zero (Some v) = v.
Proof. simpl. destruct (Z.eqb_spec v 0) as [-> | _]; reflexivity. Qed.

Lemma lookup_map {A B} (f : A -> B) (l : list A) (i : nat) :
  map f l !! i = f <$> (l !! i).
Proof.
  revert i. induction l as [|a l IH]; intros [|i]; simpl; try reflexivity.
  apply IH.
Qed.





(** C3 (as stated, refuted). On the two paths of the example the scores are
    not 68.6 and 46.8, and the path selected is not the second one. *)
Lemma calculateOptimalPath_example_not_as_claimed :
  exists st' : AppState,
    calculateOptimalPath example_state = inr st'
    /\ ~ Forall2 Qeq (scores (map (with_score example_intensities) example_paths))
                     [686 # 10; 468 # 10]%Q
    /\ path_id <$> optimalPath st' <> Some 2.
Proof.
  eexists. split; [reflexivity|]. split.
  - intros H. inversion H as [|a b la lb Hab Hrest]; subst.
    vm_compute in Hab. discriminate.
  - vm_compute. discriminate.
Qed.

(** C3 (amended). On the two paths of the example (distance 65, 1 junction,
    intensity 20; distance 90, 3 junctions, intensity 60) the scores under
    the weights (0.1, 0.6, 0.3) are 13.1 and 28.8, and the first path, of
    lower score, is selected. *)
Theorem calculateOptimalPath_example_scores :
  exists st' : AppState,
    calculateOptimalPath example_state = inr st'
    /\ Forall2 Qeq (scores (map (with_score example_intensities) example_paths))
                   [131 # 10; 288 # 10]%Q
    /\ path_id <$> optimalPath st' = Some 1
    /\ currentStep st' = 5.
Proof.
  eexists. split; [reflexivity|]. split.
  - repeat constructor; vm_compute; reflexivity.
  - split; reflexivity.
Qed.

(** ** Insertion sort under an arbitrary comparator *)

Section SortFacts.

Context {A : Type} (cmp : A -> A -> Q).

(** The comparator never puts two elements both ways round. *)
Hypothesis cmp_total : forall a b, ~ in_order cmp a b -> in_order cmp b a.

Lemma sort_insert_length (a : A) (l : list A) :
  length (JS.sort_insert cmp a l) = S (length l).
Proof.
  induction l as [|b l IH]; simpl; [reflexivity|].
  destruct (Qle_bool (cmp a b) 0); simpl; [reflexivity | rewrite IH; reflexivity].
Qed.

Lemma sort_length (l : list A) : length (JS.sort cmp l) = length l.
Proof.
  induction l as [|a l IH]; simpl; [reflexivity|].
  rewrite sort_insert_length, IH. reflexivity.
Qed.

Lemma sort_insert_perm (a : A) (l : list A) :
  Permutation (a :: l) (JS.sort_insert cmp a l).
Proof.
  induction l as [|b l IH]; simpl; [reflexivity|].
  destruct (Qle_bool (cmp a b) 0); [reflexivity|].
  rewrite perm_swap. apply perm_skip. exact IH.
Qed.

Lemma sort_perm (l : list A) : Permutation l (JS.sort cmp l).
Proof.
  induction l as [|a l IH]; simpl; [reflexivity|].
  rewrite <- sort_insert_perm. apply perm_skip. exact IH.
Qed.







End SortFacts.

(** ** Slot normaliser: spatial order *)




Lemma detectParkingSlots_success (sqrt : Q -> Q) (apiKey : string)
    (http_status : Z) (statusText : string) (image : option ImageData)
    (preds : list Prediction) :
  apiKey <> ""%string -> preds <> [] ->
  roboflowAPI.detectParkingSlots sqrt apiKey
    (fetch_response true http_status statusText
       {| predictions := Some preds; image := image |})
  = inr (detection_of sqrt image (sortSlotsSpatiallly preds)).
Proof.
  intros Hkey Hpreds. unfold roboflowAPI.detectParkingSlots.
  destruct (decide (apiKey = ""%string)); [contradiction|]. simpl.
  destruct preds; [contradiction | reflexivity].
Qed.

(** ** Slot normaliser: numbering *)

Lemma floor_div_8 (a : Z) : JS.floor_div a 8 = a / 8.
Proof.
  unfold JS.floor_div, Qdiv, Qmult, Qinv, inject_Z, Qfloor; simpl.
  rewrite Z.mul_1_r. reflexivity.
Qed.

Lemma make_slot_numbering (sqrt : Q -> Q) (image : option ImageData)
    (total : Z) (index : nat) (pred : Prediction) :
  let s := make_slot sqrt image total index pred in
  slot_number s = Z.of_nat index + 1
  /\ row s = (slot_number s - 1) / 8
  /\ col s = (slot_number s - 1) mod 8.
Proof.
  simpl. rewrite floor_div_8.
  replace (Z.of_nat index + 1 - 1) with (Z.of_nat index) by lia.
  repeat split. apply Z.rem_mod_nonneg; lia.
Qed.

Lemma slot_numbers_of_imap (sqrt : Q -> Q) (image : option ImageData)
    (total : Z) (sortedSlots : list Prediction) :
  map slot_number (imap (make_slot sqrt image total) sortedSlots)
  = seqZ 1 (Z.of_nat (length sortedSlots)).
Proof.
  apply list_eq. intros i.
  rewrite lookup_map, list_lookup_imap.
  destruct (sortedSlots !! i) as [pred|] eqn:Hi; simpl.
  - apply lookup_lt_Some in Hi.
    rewrite lookup_seqZ_lt by lia. f_equal. lia.
  - apply lookup_ge_None in Hi.
    rewrite lookup_seqZ_ge by lia. reflexivity.
Qed.

(** C5. For every non-empty batch of N detections answered with success,
    the slot normaliser returns N slots whose slot numbers, in list order,
    are 1, 2, ..., N (so they are exactly the set 1..N, without repeats);
    the slot at position i is built from the i-th prediction of the spatial
    order; every slot has row = (slot_number - 1) div 8 and
    col = (slot_number - 1) mod 8; and the returned object is a function of
    the batch and the image data alone: any other successful response
    carrying the same batch, under any API key, gives the same object. *)
Theorem detectParkingSlots_numbers_slots (sqrt : Q -> Q) (apiKey : string)
    (http_status : Z) (statusText : string) (image : option ImageData)
    (predictions : list Prediction) :
  apiKey <> ""%string ->
  predictions <> [] ->
  exists result : SlotDetection,
    roboflowAPI.detectParkingSlots sqrt apiKey
      (fetch_response true http_status statusText
         {| predictions := Some predictions; image := image |}) = inr result
    /\ length (slots result) = length predictions
    /\ total_slots result = Z.of_nat (length predictions)
    /\ map slot_number (slots result) = seqZ 1 (Z.of_nat (length predictions))
    /\ (forall n : Z, n ∈ map slot_number (slots result)
                      <-> 1 <= n <= Z.of_nat (length predictions))
    /\ NoDup (map slot_number (slots result))
    /\ (forall i pred, sortSlotsSpatiallly predictions !! i = Some pred ->
          slots result !! i
          = Some (make_slot sqrt image (Z.of_nat (length predictions)) i pred))
    /\ Forall (fun s => row s = (slot_number s - 1) / 8
                        /\ col s = (slot_number s - 1) mod 8) (slots result)
    /\ (forall apiKey' http_status' statusText',
          apiKey' <> ""%string ->
          roboflowAPI.detectParkingSlots sqrt apiKey'
            (fetch_response true http_status' statusText'
               {| predictions := Some predictions; image := image |}) = inr result).
Proof.
  intros Hkey Hpreds.
  exists (detection_of sqrt image (sortSlotsSpatiallly predictions)).
  assert (Hlen : length (sortSlotsSpatiallly predictions) = length predictions)
    by apply sort_length.
  split; [apply detectParkingSlots_success; assumption|].
  unfold detection_of; simpl. rewrite Hlen.
  split; [rewrite length_imap; exact Hlen|].
  split; [reflexivity|].
  assert (Hnum : map slot_number
                   (imap (make_slot sqrt image (Z.of_nat (length predictions)))
                         (sortSlotsSpatiallly predictions))
                 = seqZ 1 (Z.of_nat (length predictions))).
  { rewrite slot_numbers_of_imap, Hlen. reflexivity. }
  split; [exact Hnum|]. rewrite Hnum.
  split; [intros n; rewrite elem_of_seqZ; lia|].
  split; [apply NoDup_seqZ|].
  split.
  { intros i pred Hi. rewrite list_lookup_imap, Hi. reflexivity. }
  split.
  { apply Forall_forall. intros s Hs.
    apply list_elem_of_lookup in Hs as [i Hi].
    rewrite list_lookup_imap in Hi.
    destruct (sortSlotsSpatiallly predictions !! i) as [pred|]; [|discriminate].
    injection Hi as <-.
    destruct (make_slot_numbering sqrt image (Z.of_nat (length predictions)) i pred)
      as (_ & Hrow & Hcol).
    split; assumption. }
  intros apiKey' http_status' statusText' Hkey'.
  rewrite detectParkingSlots_success by assumption.
  unfold detection_of. rewrite Hlen. reflexivity.
Qed.

Lemma detectParkingSlots_numbers_slots_witness :
  exists result : SlotDetection,
    roboflowAPI.detectParkingSlots (fun q => q) "key"
      (fetch_response true 200 "OK"
         {| predictions := Some example_predictions; image := None |}) = inr result
    /\ map slot_number (slots result) = [1; 2; 3]
    /\ map original_class (slots result) = ["empty"; "occupied"; "empty"]%string.
Proof.
  destruct (detectParkingSlots_numbers_slots (fun q => q) "key" 200 "OK" None
              example_predictions)
    as (result & Hresult & _ & _ & Hnumbers & _).
  - discriminate.
  - discriminate.
  - exists result. split; [exact Hresult|]. split; [exact Hnumbers|].
    vm_compute in Hresult. injection Hresult as <-. reflexivity.
Defined.

(** The corner and edge example of the specification: 24 slots, 3 rows. *)
Example corner_edge_example :
  isCornerSlot 0 24 = true /\ isEdgeSlot 0 24 = true
  /\ isCornerSlot 11 24 = false /\ isEdgeSlot 11 24 = false.
Proof. repeat split. Qed.

(** ** Random draws *)

Lemma Qfloor_between (q : Q) (a b : Z) :
  (inject_Z a <= q)%Q -> (q < inject_Z b)%Q -> a <= Qfloor q < b.
Proof.
  intros Hlo Hhi. split.
  - rewrite <- (Qfloor_Z a). apply Qfloor_resp_le. exact Hlo.
  - rewrite Zlt_Qlt. apply Qle_lt_trans with q; [apply Qfloor_le | exact Hhi].
Qed.

(** ** Rounding of doubles *)

Section Binary64Facts.

Import Binary64.

Lemma pow2_pos (e : Z) : (0 < 2 ^ e)%Q.
Proof. apply Qpower_0_lt. reflexivity. Qed.

Lemma pow2_add (a b : Z) : (2 ^ (a + b) == 2 ^ a * 2 ^ b)%Q.
Proof. apply Qpower_plus. discriminate. Qed.

Lemma pow2_le (a b : Z) : a <= b -> (2 ^ a <= 2 ^ b)%Q.
Proof. intros H. apply Qpower_le_compat_l; [exact H | discriminate]. Qed.

Lemma pow2_lt_inv (a b : Z) : (2 ^ a < 2 ^ b)%Q -> a < b.
Proof. intros H. apply (Qpower_lt_compat_l_inv 2); [exact H | reflexivity]. Qed.

Lemma pow2_Z (e : Z) : 0 <= e -> (2 ^ e == inject_Z (2 ^ e))%Q.
Proof. intros H. rewrite Zpower_Qpower by exact H. reflexivity. Qed.

Lemma ilog2_spec (q : Q) : (0 < q)%Q -> (2 ^ ilog2 q <= q < 2 ^ (ilog2 q + 1))%Q.
Proof.
  intros Hq. destruct q as [n d].
  assert (Hn : 0 < n) by (unfold Qlt in Hq; simpl in Hq; lia).
  unfold ilog2. cbn [Qnum Qden].
  set (a := Z.log2 n). set (b := Z.log2 (Z.pos d)). set (k := a - b).
  assert (Ha0 : 0 <= a) by apply Z.log2_nonneg.
  assert (Hb0 : 0 <= b) by apply Z.log2_nonneg.
  destruct (Z.log2_spec n Hn) as [Ha1 Ha2]. fold a in Ha1, Ha2.
  destruct (Z.log2_spec (Z.pos d) (Pos2Z.is_pos d)) as [Hb1 Hb2]. fold b in Hb1, Hb2.
  assert (Hq' : (n # d == inject_Z n / inject_Z (Z.pos d))%Q) by apply Qmake_Qdiv.
  assert (HD : (0 < inject_Z (Z.pos d))%Q) by reflexivity.
  assert (HNa : (2 ^ a <= inject_Z n)%Q) by (rewrite pow2_Z, <- Zle_Qle; assumption).
  assert (HNa' : (inject_Z n < 2 ^ (a + 1))%Q)
    by (rewrite pow2_Z, <- Zlt_Qlt by lia; exact Ha2).
  assert (HDb : (2 ^ b <= inject_Z (Z.pos d))%Q) by (rewrite pow2_Z, <- Zle_Qle; assumption).
  assert (HDb' : (inject_Z (Z.pos d) < 2 ^ (b + 1))%Q)
    by (rewrite pow2_Z, <- Zlt_Qlt by lia; exact Hb2).
  assert (Hup : (n # d < 2 ^ (k + 1))%Q).
  { rewrite Hq'. apply Qlt_shift_div_r; [exact HD|].
    apply Qlt_le_trans with (2 ^ (a + 1))%Q; [exact HNa'|].
    assert (Heq : (2 ^ (a + 1) == 2 ^ (k + 1) * 2 ^ b)%Q)
      by (rewrite <- pow2_add; replace (k + 1 + b) with (a + 1) by (unfold k; lia);
          reflexivity).
    rewrite Heq. apply Qmult_le_l; [apply pow2_pos | exact HDb]. }
  assert (Hlow : (2 ^ (k - 1) <= n # d)%Q).
  { rewrite Hq'. apply Qle_shift_div_l; [exact HD|].
    apply Qle_trans with (2 ^ a)%Q; [|exact HNa].
    assert (Heq : (2 ^ a == 2 ^ (k - 1) * 2 ^ (b + 1))%Q)
      by (rewrite <- pow2_add; replace (k - 1 + (b + 1)) with a by (unfold k; lia);
          reflexivity).
    rewrite Heq. apply Qmult_le_l; [apply pow2_pos|].
    apply Qlt_le_weak. exact HDb'. }
  destruct (Qle_bool (2 ^ k) (n # d)) eqn:Hk.
  - split; [apply Qle_bool_iff; exact Hk | exact Hup].
  - split; [exact Hlow|]. replace (k - 1 + 1) with k by lia.
    apply Qnot_le_lt. intros H. apply Qle_bool_iff in H. congruence.
Qed.

Lemma ilog2_unique (q : Q) (k : Z) :
  (2 ^ k <= q < 2 ^ (k + 1))%Q -> ilog2 q = k.
Proof.
  intros [H1 H2].
  assert (Hq : (0 < q)%Q) by (apply Qlt_le_trans with (2 ^ k)%Q; [apply pow2_pos | exact H1]).
  destruct (ilog2_spec q Hq) as [H3 H4].
  assert (k < ilog2 q + 1)
    by (apply pow2_lt_inv; apply Qle_lt_trans with q; assumption).
  assert (ilog2 q < k + 1)
    by (apply pow2_lt_inv; apply Qle_lt_trans with q; assumption).
  lia.
Qed.

Lemma ilog2_le (a b : Q) : (0 < a)%Q -> (a <= b)%Q -> ilog2 a <= ilog2 b.
Proof.
  intros Ha Hab.
  assert (Hb : (0 < b)%Q) by (apply Qlt_le_trans with a; assumption).
  destruct (ilog2_spec a Ha) as [H1 _]. destruct (ilog2_spec b Hb) as [_ H2].
  assert (ilog2 a < ilog2 b + 1); [|lia].
  apply pow2_lt_inv. apply Qle_lt_trans with a; [exact H1|].
  apply Qle_lt_trans with b; assumption.
Qed.

Lemma round_half_even_bounds (q : Q) :
  Qfloor q <= round_half_even q <= Qceiling q.
Proof.
  unfold round_half_even.
  assert (Hfc := Qle_floor_ceiling q). rewrite <- Zle_Qle in Hfc.
  assert (Hup : (1 # 2 <= q - inject_Z (Qfloor q))%Q -> Qfloor q + 1 <= Qceiling q).
  { intros H. assert (Hlt : (inject_Z (Qfloor q) < inject_Z (Qceiling q))%Q).
    { apply Qlt_le_trans with q; [lra | apply Qle_ceiling]. }
    rewrite <- Zlt_Qlt in Hlt. lia. }
  destruct (q - inject_Z (Qfloor q) ?= 1 # 2)%Q eqn:Hcmp.
  - apply Qeq_alt in Hcmp. destruct (Z.even (Qfloor q)); [lia|].
    split; [lia | apply Hup; lra].
  - lia.
  - apply Qgt_alt in Hcmp. split; [lia | apply Hup; lra].
Qed.

Lemma round_half_even_ge (q : Q) (m : Z) : (inject_Z m <= q)%Q -> m <= round_half_even q.
Proof.
  intros H. apply Qfloor_resp_le in H. rewrite Qfloor_Z in H.
  pose proof (round_half_even_bounds q). lia.
Qed.

Lemma round_half_even_le (q : Q) (m : Z) : (q <= inject_Z m)%Q -> round_half_even q <= m.
Proof.
  intros H. apply Qceiling_resp_le in H. rewrite Qceiling_Z in H.
  pose proof (round_half_even_bounds q). lia.
Qed.

Lemma round_of_positive (q : Q) : (0 < q)%Q -> round q = round_positive q.
Proof. intros H. unfold round. apply Qgt_alt in H. rewrite H. reflexivity. Qed.

Lemma ulp_exponent_le (a b : Q) :
  (0 < a)%Q -> (a <= b)%Q -> ulp_exponent a <= ulp_exponent b.
Proof. intros Ha Hab. unfold ulp_exponent. pose proof (ilog2_le a b Ha Hab). lia. Qed.

(** A quotient by a power of two, as a product. *)
Lemma div_pow2 (q : Q) (e : Z) : (q / 2 ^ e == q * 2 ^ (- e))%Q.
Proof. unfold Qdiv. rewrite Qpower_opp. reflexivity. Qed.

Lemma on_grid (q : Q) (e e' : Z) (n : Z) :
  e' <= e -> (q == inject_Z n * 2 ^ e)%Q ->
  (q / 2 ^ e' == inject_Z (n * 2 ^ (e - e')))%Q.
Proof.
  intros He Hq. rewrite div_pow2, Hq, <- Qmult_assoc, <- pow2_add.
  rewrite inject_Z_mult, <- pow2_Z by lia. replace (e + - e') with (e - e') by lia.
  reflexivity.
Qed.

Lemma scale_le (a b : Q) (e : Z) : (a <= b)%Q -> (a / 2 ^ e <= b / 2 ^ e)%Q.
Proof.
  intros H. rewrite !div_pow2. apply Qmult_le_compat_r; [exact H|].
  apply Qlt_le_weak, pow2_pos.
Qed.

Lemma unscale (q : Q) (e : Z) : (q / 2 ^ e * 2 ^ e == q)%Q.
Proof.
  rewrite div_pow2, <- Qmult_assoc, <- pow2_add.
  replace (- e + e) with 0 by lia. change (2 ^ 0)%Q with 1%Q. ring.
Qed.

(** Rounding does not cross a double: a value between two doubles rounds
    to a double between them. *)
Lemma round_between (lo v hi : Q) :
  representable lo -> representable hi ->
  (0 <= lo)%Q -> (lo <= v)%Q -> (v <= hi)%Q ->
  (lo <= round v <= hi)%Q.
Proof.
  intros Hlo Hhi Hlo0 Hlov Hvhi. unfold round at 1 2.
  destruct (v ?= 0)%Q eqn:Hcmp.
  - apply Qeq_alt in Hcmp. split; lra.
  - exfalso. apply Qlt_alt in Hcmp. lra.
  - apply Qgt_alt in Hcmp. unfold round_positive.
    set (e := ulp_exponent v).
    assert (Hpow := pow2_pos e).
    split.
    + (* lower bound *)
      destruct (Qlt_le_dec 0 lo) as [Hpos | Hzero].
      * unfold representable in Hlo. rewrite (round_of_positive lo Hpos) in Hlo.
        unfold round_positive in Hlo. set (el := ulp_exponent lo) in Hlo.
        assert (Hel : el <= e) by (apply ulp_exponent_le; assumption).
        destruct (Z.eq_dec el e) as [Heq | Hne].
        -- subst el. rewrite Heq in Hlo. fold e in Hlo.
           apply Qle_trans with (inject_Z (round_half_even (lo / 2 ^ e)) * 2 ^ e)%Q;
             [apply Qle_lteq; right; symmetry; exact Hlo|].
           apply Qmult_le_compat_r; [|lra]. rewrite <- Zle_Qle.
           apply round_half_even_ge. apply Qle_trans with (lo / 2 ^ e)%Q;
             [|apply scale_le; exact Hlov].
           apply Qle_shift_div_l; [exact Hpow|].
           apply Qle_lteq; right; exact Hlo.
        -- assert (Hk : ilog2 lo < ilog2 v /\ e = ilog2 v - 52)
             by (unfold e, el, ulp_exponent in *; lia).
           destruct Hk as [Hk He].
           destruct (ilog2_spec lo Hpos) as [_ Hlo2].
           destruct (ilog2_spec v Hcmp) as [Hv1 _].
           apply Qle_trans with (2 ^ ilog2 v)%Q.
           ++ apply Qlt_le_weak. apply Qlt_le_trans with (2 ^ (ilog2 lo + 1))%Q;
                [exact Hlo2 | apply pow2_le; lia].
           ++ replace (ilog2 v) with (52 + e) at 1 by lia.
              rewrite pow2_add. apply Qmult_le_compat_r; [|lra].
              rewrite pow2_Z by lia. rewrite <- Zle_Qle.
              apply round_half_even_ge. rewrite <- pow2_Z by lia.
              apply Qle_shift_div_l; [exact Hpow|].
              rewrite <- pow2_add. replace (52 + e) with (ilog2 v) by lia. exact Hv1.
      * apply Qle_trans with 0%Q; [exact Hzero|].
        apply Qmult_le_0_compat; [|lra].
        change 0%Q with (inject_Z 0). rewrite <- Zle_Qle.
        apply round_half_even_ge. change (inject_Z 0) with 0%Q.
        apply Qle_shift_div_l; [exact Hpow | lra].
    + (* upper bound *)
      assert (Hpos : (0 < hi)%Q) by lra.
      unfold representable in Hhi. rewrite (round_of_positive hi Hpos) in Hhi.
      unfold round_positive in Hhi. set (eh := ulp_exponent hi) in Hhi.
      assert (Heh : e <= eh) by (apply ulp_exponent_le; assumption).
      symmetry in Hhi.
      pose proof (on_grid hi eh e _ Heh Hhi) as Hgrid.
      rewrite <- (unscale hi e). apply Qmult_le_compat_r; [|lra].
      rewrite Hgrid, <- Zle_Qle. apply round_half_even_le.
      rewrite <- Hgrid. apply scale_le. exact Hvhi.
Qed.

(** The largest double below 1. *)
Lemma below_one (r : Q) :
  representable r -> (0 <= r)%Q -> (r < 1)%Q -> (r <= 1 - 2 ^ (-53))%Q.
Proof.
  intros Hr H0 H1. destruct (Qlt_le_dec (1 # 2) r) as [Hhalf | Hhalf].
  - assert (Hpos : (0 < r)%Q) by lra.
    unfold representable in Hr. rewrite (round_of_positive r Hpos) in Hr.
    unfold round_positive, ulp_exponent in Hr.
    rewrite (ilog2_unique r (-1)) in Hr
      by (split; [apply Qlt_le_weak; exact Hhalf | exact H1]).
    change (Z.max (-1 - 52) (-1074)) with (-53) in Hr.
    set (n := round_half_even (r / 2 ^ (-53))) in Hr.
    assert (Hn : n < 2 ^ 53).
    { rewrite Zlt_Qlt. rewrite <- pow2_Z by lia.
      apply Qmult_lt_r with (2 ^ (-53))%Q; [apply pow2_pos|].
      rewrite Hr, <- pow2_add. exact H1. }
    rewrite <- Hr.
    apply Qle_trans with (inject_Z (2 ^ 53 - 1) * 2 ^ (-53))%Q.
    + apply Qmult_le_compat_r; [rewrite <- Zle_Qle; lia | discriminate].
    + apply Qle_lteq. right. reflexivity.
  - apply Qle_trans with (1 # 2)%Q; [exact Hhalf | discriminate].
Qed.

Lemma representable_compute (q : Q) : Qeq_bool (Binary64.round q) q = true -> representable q.
Proof. intros H. apply Qeq_bool_iff. exact H. Qed.

Lemma jitter_bounds (r : Q) : (0 <= r < 1)%Q -> (0 <= Binary64.mul r 20 <= 20)%Q.
Proof.
  intros [H0 H1]. unfold Binary64.mul.
  apply round_between; try lra; apply representable_compute; reflexivity.
Qed.

Lemma base_distance (i : nat) :
  (i <= 3)%nat ->
  (Binary64.add 65 (Binary64.mul (inject_Z (Z.of_nat i)) 25) == 65 + inject_Z (25 * Z.of_nat i))%Q
  /\ representable (65 + inject_Z (25 * Z.of_nat i))
  /\ representable (65 + inject_Z (25 * Z.of_nat i) + 20).
Proof.
  intros Hi. destruct i as [|[|[|[|i]]]]; [| | | |lia];
    (split; [reflexivity|]); split; apply representable_compute; reflexivity.
Qed.

Lemma junction_draw (r : Q) :
  representable r -> (0 <= r < 1)%Q -> 0 <= Qfloor (Binary64.mul r 2) < 2.
Proof.
  intros Hr [H0 H1]. pose proof (below_one r Hr H0 H1) as Hle.
  assert (Hb : (0 <= Binary64.mul r 2 <= 2 - 2 ^ (-52))%Q).
  { unfold Binary64.mul. apply round_between;
      [apply representable_compute; reflexivity
      | apply representable_compute; reflexivity | lra | lra |].
    assert (Heq : (2 - 2 ^ (-52) == (1 - 2 ^ (-53)) * 2)%Q) by reflexivity.
    rewrite Heq. lra. }
  assert (Hlt : (2 - 2 ^ (-52) < 2)%Q) by reflexivity.
  apply Qfloor_between; [change (inject_Z 0) with 0%Q | change (inject_Z 2) with 2%Q]; lra.
Qed.

Lemma round_half_even_Z (q : Q) (m : Z) : (q == inject_Z m)%Q -> round_half_even q = m.
Proof.
  intros H.
  assert (m <= round_half_even q) by (apply round_half_even_ge; rewrite H; apply Qle_refl).
  assert (round_half_even q <= m) by (apply round_half_even_le; rewrite H; apply Qle_refl).
  lia.
Qed.

Lemma round_positive_integer (m : Z) :
  0 < m <= 2 ^ 53 -> (round_positive (inject_Z m) == inject_Z m)%Q.
Proof.
  intros [Hpos Hle]. destruct (Z.eq_dec m (2 ^ 53)) as [-> | Hne]; [reflexivity|].
  assert (Hq : (0 < inject_Z m)%Q)
    by (change 0%Q with (inject_Z 0); rewrite <- Zlt_Qlt; lia).
  destruct (ilog2_spec (inject_Z m) Hq) as [Hlo Hhi].
  assert (Hk : ilog2 (inject_Z m) < 53).
  { apply pow2_lt_inv. apply Qle_lt_trans with (inject_Z m); [exact Hlo|].
    rewrite pow2_Z by lia. rewrite <- Zlt_Qlt. lia. }
  assert (Hk0 : 0 <= ilog2 (inject_Z m)).
  { assert (0 < ilog2 (inject_Z m) + 1); [|lia].
    apply pow2_lt_inv. apply Qle_lt_trans with (inject_Z m); [|exact Hhi].
    change (2 ^ 0)%Q with (inject_Z 1). rewrite <- Zle_Qle. lia. }
  unfold round_positive, ulp_exponent.
  set (e := Z.max (ilog2 (inject_Z m) - 52) (-1074)).
  assert (He : e <= 0) by (unfold e; lia).
  assert (Hgrid : (inject_Z m / 2 ^ e == inject_Z (m * 2 ^ (0 - e)))%Q).
  { apply on_grid; [exact He|]. change (2 ^ 0)%Q with 1%Q. ring. }
  rewrite (round_half_even_Z _ _ Hgrid), <- Hgrid. apply unscale.
Qed.

(** The integers up to 2^53 in magnitude are doubles. *)
Lemma integer_representable (n : Z) :
  - 2 ^ 53 <= n <= 2 ^ 53 -> representable (inject_Z n).
Proof.
  intros Hn. unfold representable, round.
  destruct (inject_Z n ?= 0)%Q eqn:Hcmp.
  - apply Qeq_alt in Hcmp. symmetry. exact Hcmp.
  - apply Qlt_alt in Hcmp. change 0%Q with (inject_Z 0) in Hcmp.
    rewrite <- Zlt_Qlt in Hcmp.
    change (- inject_Z n)%Q with (inject_Z (- n)).
    rewrite round_positive_integer by lia.
    rewrite inject_Z_opp. ring.
  - apply Qgt_alt in Hcmp. change 0%Q with (inject_Z 0) in Hcmp.
    rewrite <- Zlt_Qlt in Hcmp. apply round_positive_integer. lia.
Qed.

End Binary64Facts.

(** The rounding of [Binary64] is the rounding of the kernel's doubles on
    every operation of [kernel_samples]. *)
Example Binary64_agrees_with_kernel :
  forallb (fun sample => agree (fst sample) (snd sample)) kernel_samples = true.
Proof. vm_compute. reflexivity. Qed.

(** ** Path candidate generator *)

Lemma top_draws_double : double_draws top_draws.
Proof.
  intros n. unfold top_draws. split; [|split]; [|discriminate|reflexivity].
  apply Qeq_bool_iff. vm_compute. reflexivity.
Qed.

(** C8 (as stated, refuted). [top_draws] draws 1 - 2^-52, a double of
    [0, 1). The product with 20 rounds to 20 - 2^-48 and the sum with 65
    rounds to 85: the distance of the first path is 85, the end of the
    interval the claim excludes. *)
Lemma generatePathsToSlot_distance_reaches_upper_end :
  exists path : Path,
    double_draws top_draws
    /\ Rounded.generatePathsToSlot top_draws (interior_slot 10 50) !! 0%nat = Some path
    /\ (distance path == 85)%Q
    /\ ~ (distance path < 65 + inject_Z (25 * Z.of_nat 0) + 20)%Q.
Proof.
  eexists. split; [exact top_draws_double|]. split; [reflexivity|]. split.
  - vm_compute. reflexivity.
  - vm_compute. discriminate.
Qed.

(** C8 (amended). For every allocated slot and every stream of draws that
    are doubles in [0, 1), the generator, computing in doubles, returns 4
    paths when the slot's row is at most 1 and 3 paths otherwise; the path
    at index i has id i + 1, a distance from 65 + 25 i to 65 + 25 i + 20,
    both ends included, 1 + i or 2 + i junctions, and neither an intensity
    nor a score. *)
Theorem generatePathsToSlot_count_and_closed_ranges (random : nat -> Q) (slot : Slot) :
  double_draws random ->
  length (Rounded.generatePathsToSlot random slot)
  = (if row slot <=? 1 then 4%nat else 3%nat)
  /\ forall (i : nat) (path : Path),
       Rounded.generatePathsToSlot random slot !! i = Some path ->
       path_id path = Z.of_nat i + 1
       /\ (65 + inject_Z (25 * Z.of_nat i) <= distance path)%Q
       /\ (distance path <= 65 + inject_Z (25 * Z.of_nat i) + 20)%Q
       /\ (tJunctions path = 1 + Z.of_nat i \/ tJunctions path = 2 + Z.of_nat i)
       /\ vehicleIntensity path = None
       /\ score path = None.
Proof.
  intros Hrandom. unfold Rounded.generatePathsToSlot. split.
  - rewrite length_map, length_seq. reflexivity.
  - intros i path Hi. rewrite lookup_map in Hi.
    destruct (seq 0 (if row slot <=? 1 then 4%nat else 3%nat) !! i) as [k|] eqn:Hk;
      [|discriminate].
    apply lookup_seq in Hk as [-> Hlt]. simpl in Hi. apply (inj Some) in Hi. subst path.
    cbn [path_id distance tJunctions vehicleIntensity score].
    assert (Hi3 : (i <= 3)%nat) by (destruct (row slot <=? 1); lia).
    destruct (Hrandom (2 * i)%nat) as [_ Hd].
    destruct (Hrandom (2 * i + 1)%nat) as [Hjr Hj].
    destruct (base_distance i Hi3) as (Hbase & Hrep & Hrep20).
    pose proof (jitter_bounds _ Hd) as Ht.
    pose proof (junction_draw _ Hjr Hj) as Hfloor.
    assert (Hbase0 : (0 <= 65 + inject_Z (25 * Z.of_nat i))%Q).
    { assert (0 <= inject_Z (25 * Z.of_nat i))%Q
        by (change 0%Q with (inject_Z 0); rewrite <- Zle_Qle; lia). lra. }
    assert (Hdist :
      (65 + inject_Z (25 * Z.of_nat i)
       <= Binary64.add (Binary64.add 65 (Binary64.mul (inject_Z (Z.of_nat i)) 25))
            (Binary64.mul (random (2 * i)%nat) 20)
       <= 65 + inject_Z (25 * Z.of_nat i) + 20)%Q).
    { unfold Binary64.add at 1 3.
      revert Hbase Hrep Hrep20 Hbase0 Ht.
      generalize (Binary64.add 65 (Binary64.mul (inject_Z (Z.of_nat i)) 25)).
      generalize (65 + inject_Z (25 * Z.of_nat i))%Q.
      generalize (Binary64.mul (random (2 * i)%nat) 20).
      intros t base sum Hbase Hrep Hrep20 Hbase0 Ht.
      apply round_between; try assumption; rewrite Hbase; clear - Ht; lra. }
    split; [reflexivity|]. split; [apply Hdist|]. split; [apply Hdist|].
    change (2 * i + 1)%nat with (i + (i + 0) + 1)%nat in Hfloor.
    split; [lia|]. split; reflexivity.
Qed.

Lemma generatePathsToSlot_count_and_closed_ranges_witness :
  length (Rounded.generatePathsToSlot top_draws (interior_slot 10 50)) = 4%nat
  /\ Forall2 Qeq (map distance (Rounded.generatePathsToSlot top_draws (interior_slot 10 50)))
       [85; 110; 135; 160]%Q
  /\ map tJunctions (Rounded.generatePathsToSlot top_draws (interior_slot 10 50))
     = [2; 3; 4; 5].
Proof.
  destruct (generatePathsToSlot_count_and_closed_ranges top_draws (interior_slot 10 50))
    as [Hlength _].
  - exact top_draws_double.
  - split; [exact Hlength|]. split; [|reflexivity].
    repeat constructor; vm_compute; reflexivity.
Defined.

(** ** Allocation failure *)

Lemma detectVehicleAndAllocate_when_lot_full (response : FetchOutcome)
    (random : nat -> Q) (st : AppState) (vehicleResult : VehicleResult) :
  is_Some (vehicleImage st) ->
  roboflowAPI.detectVehicleType (apiKey st) response = inr vehicleResult ->
  filter (fun slot => status slot = empty) (detectedSlots st) = [] ->
  detectVehicleAndAllocate response random st
  = st |> setIsProcessing true |> setError ""
       |> setDetectedVehicleType (Some vehicleResult)
       |> setError "No empty slots available"
       |> setIsProcessing false.
Proof.
  intros [img Himg] Hdetect Hfull. unfold detectVehicleAndAllocate.
  rewrite Himg, Hdetect, Hfull. reflexivity.
Qed.

Lemma resetSystem_cleared (st : AppState) : resetSystem st = cleared st.
Proof. reflexivity. Qed.

(** C6. Whatever vehicle (of whatever category) the detector reports, when no detected
    slot has status empty the allocation step sets the error
    'No empty slots available' and selects nothing: the allocated slot, the
    paths and the step are those the handler started from (in a session
    that has none allocated, none is). The handler still returns a state,
    with the processing flag released, and [resetSystem] takes that state
    to the cleared one. *)
Theorem detectVehicleAndAllocate_no_empty_slots (response : FetchOutcome)
    (random : nat -> Q) (st : AppState) (vehicleResult : VehicleResult) :
  is_Some (vehicleImage st) ->
  roboflowAPI.detectVehicleType (apiKey st) response = inr vehicleResult ->
  filter (fun slot => status slot = empty) (detectedSlots st) = [] ->
  let st' := detectVehicleAndAllocate response random st in
  error st' = "No empty slots available"%string
  /\ allocatedSlot st' = allocatedSlot st
  /\ (allocatedSlot st = None -> allocatedSlot st' = None)
  /\ pathsData st' = pathsData st
  /\ currentStep st' = currentStep st
  /\ isProcessing st' = false
  /\ resetSystem st' = cleared st'
  /\ error (resetSystem st') = ""%string
  /\ allocatedSlot (resetSystem st') = None
  /\ currentStep (resetSystem st') = 1.
Proof.
  intros Himg Hdetect Hfull st'. subst st'.
  rewrite (detectVehicleAndAllocate_when_lot_full _ _ _ _ Himg Hdetect Hfull).
  repeat split. intros H. exact H.
Qed.

Lemma detectVehicleAndAllocate_no_empty_slots_witness :
  error (detectVehicleAndAllocate (vehicle_response "Pickup Truck") half_draws
           full_lot_state) = "No empty slots available"%string
  /\ allocatedSlot (detectVehicleAndAllocate (vehicle_response "Pickup Truck")
                      half_draws full_lot_state) = None.
Proof.
  destruct (detectVehicleAndAllocate_no_empty_slots
              (vehicle_response "Pickup Truck") half_draws full_lot_state
              {| vehicle_type := truck; vr_confidence := 90; vr_x := 320;
                 vr_y := 240; vr_width := 40; vr_height := 80;
                 vr_original_class := "Pickup Truck" |})
    as (Herr & Hslot & _).
  - eexists; reflexivity.
  - reflexivity.
  - reflexivity.
  - split; [exact Herr | exact Hslot].
Defined.

(** C10. When the step fails for want of an empty slot, the vehicle
    detection has been committed: the state holds the detected vehicle,
    while the allocated slot and the path list are those the handler
    started from (and so is the optimal path). *)
Theorem detectVehicleAndAllocate_commits_vehicle_before_failing
    (response : FetchOutcome) (random : nat -> Q) (st : AppState)
    (vehicleResult : VehicleResult) :
  is_Some (vehicleImage st) ->
  roboflowAPI.detectVehicleType (apiKey st) response = inr vehicleResult ->
  filter (fun slot => status slot = empty) (detectedSlots st) = [] ->
  let st' := detectVehicleAndAllocate response random st in
  error st' = "No empty slots available"%string
  /\ detectedVehicleType st' = Some vehicleResult
  /\ allocatedSlot st' = allocatedSlot st
  /\ pathsData st' = pathsData st
  /\ optimalPath st' = optimalPath st
  /\ detectedSlots st' = detectedSlots st.
Proof.
  intros Himg Hdetect Hfull st'. subst st'.
  rewrite (detectVehicleAndAllocate_when_lot_full _ _ _ _ Himg Hdetect Hfull).
  repeat split.
Qed.

Lemma detectVehicleAndAllocate_commits_vehicle_before_failing_witness :
  vehicle_type <$> detectedVehicleType
     (detectVehicleAndAllocate (vehicle_response "Scooter-X1") half_draws
        full_lot_state) = Some motorcycle
  /\ pathsData (detectVehicleAndAllocate (vehicle_response "Scooter-X1") half_draws
                  full_lot_state) = [].
Proof.
  destruct (detectVehicleAndAllocate_commits_vehicle_before_failing
              (vehicle_response "Scooter-X1") half_draws full_lot_state
              {| vehicle_type := motorcycle; vr_confidence := 90; vr_x := 320;
                 vr_y := 240; vr_width := 40; vr_height := 80;
                 vr_original_class := "Scooter-X1" |})
    as (_ & Hvehicle & _ & Hpaths & _).
  - eexists; reflexivity.
  - reflexivity.
  - reflexivity.
  - split; [rewrite Hvehicle; reflexivity | exact Hpaths].
Defined.

(** ** Vehicle intensities *)

Lemma simulate_fold_range (random : nat -> Q) (paths : list Path)
    (intensities : gmap Z Z) (n : nat) :
  unit_draws random ->
  map_Forall (fun _ v => 10 <= v < 90) intensities ->
  map_Forall (fun _ v => 10 <= v < 90)
    (fst (fold_left
            (fun (acc : gmap Z Z * nat) path =>
               let '(intensities, n) := acc in
               (<[path_id path := Qfloor (random n * 80) + 10]> intensities, S n))
            paths (intensities, n))).
Proof.
  intros Hrandom. revert intensities n.
  induction paths as [|path paths IH]; intros intensities n Hall; cbn [fold_left].
  - exact Hall.
  - apply IH. apply map_Forall_insert_2; [|exact Hall].
    destruct (Hrandom n) as [H0 H1].
    assert (Hfloor : 0 <= Qfloor (random n * 80) < 80).
    { apply Qfloor_between; change (inject_Z 0) with 0%Q;
        change (inject_Z 80) with 80%Q; lra. }
    cbv beta. lia.
Qed.

(** The simulated intensities are integers in [10, 90). *)
Lemma simulate_intensities_range (random : nat -> Q) (paths : list Path) :
  unit_draws random ->
  forall pathId v, simulate_intensities random paths !! pathId = Some v -> 10 <= v < 90.
Proof.
  intros Hrandom pathId v Hv.
  apply (simulate_fold_range random paths ∅ 0%nat Hrandom (map_Forall_empty _) pathId v Hv).
Qed.

(** A manual value replaces whatever was recorded for its path, and only
    that. *)
Lemma handleVehicleIntensityChange_overrides (pathId : Z) (value : string)
    (st : AppState) :
  pathVehicleIntensities (handleVehicleIntensityChange pathId value st) !! pathId
  = Some (or_zero (JS.parseInt value))
  /\ (forall other, other <> pathId ->
        pathVehicleIntensities (handleVehicleIntensityChange pathId value st) !! other
        = pathVehicleIntensities st !! other).
Proof.
  unfold handleVehicleIntensityChange; simpl. split.
  - apply lookup_insert_eq.
  - intros other Hne. apply lookup_insert_ne. congruence.
Qed.

(** C9 (the code at the failing input). After the simulated analysis of the
    two example paths, typing 150 for path 1 records 150, and the scorer
    attaches 150 to that path: a value outside 0..100. *)
Theorem manual_intensity_is_not_clamped :
  let st := detectPathVehicleIntensities half_draws
              (initialState |> setPathsData example_paths) in
  let st' := handleVehicleIntensityChange 1 "150" st in
  pathVehicleIntensities st !! 1 = Some 50
  /\ pathVehicleIntensities st' !! 1 = Some 150
  /\ map vehicleIntensity (map (with_score (pathVehicleIntensities st')) (pathsData st'))
     = [Some 150; Some 50].
Proof. repeat split; vm_compute; reflexivity. Qed.

(** * Further properties of the component *)

(** ** Slot status and grid position *)

(** X1. A label reads as an empty slot exactly when its lowered form
    contains one of the words empty, parking spot, available, free; labels
    equal up to case are read alike. *)
Theorem isEmptySlot_keywords (className : string) :
  (isEmptySlot className = true
   <-> exists keyword, In keyword ["empty"; "parking spot"; "available"; "free"]%string
                       /\ substring_of keyword (JS.toLowerCase className))
  /\ (forall other, same_ignoring_case className other ->
        isEmptySlot other = isEmptySlot className).
Proof.
  split.
  - unfold isEmptySlot, JS.some, emptyClasses. rewrite existsb_exists. split.
    + intros (k & Hin & Hk). exists k. split; [exact Hin|].
      apply includes_substring.
      simpl in Hin. destruct Hin as [<- | [<- | [<- | [<- | []]]]]; exact Hk.
    + intros (k & Hin & Hk). exists k. split; [exact Hin|].
      apply includes_substring in Hk.
      simpl in Hin. destruct Hin as [<- | [<- | [<- | [<- | []]]]]; exact Hk.
  - intros other Hsame. unfold isEmptySlot, same_ignoring_case in *.
    rewrite Hsame. reflexivity.
Qed.

Lemma ceil_div_8 (total : Z) : 1 <= total -> JS.ceil_div total 8 - 1 = (total - 1) / 8.
Proof.
  intros Htotal. unfold JS.ceil_div, Qceiling.
  assert (Hfloor : Qfloor (- (inject_Z total / inject_Z 8)) = (- total) / 8).
  { unfold Qdiv, Qmult, Qinv, Qopp, inject_Z, Qfloor; simpl.
    rewrite Z.mul_1_r. reflexivity. }
  rewrite Hfloor.
  assert (Hdiv : (- total) / 8 = - ((total - 1) / 8) - 1).
  { symmetry. apply (Z.div_unique (- total) 8 _ (7 - (total - 1) mod 8)).
    - left. pose proof (Z.mod_pos_bound (total - 1) 8). lia.
    - pose proof (Z.div_mod (total - 1) 8). lia. }
  lia.
Qed.

(** X2. Every corner is an edge, whatever the index and the slot count. *)
Theorem corner_is_edge (index totalSlots : Z) :
  isCornerSlot index totalSlots = true -> isEdgeSlot index totalSlots = true.
Proof.
  unfold isCornerSlot, isEdgeSlot. cbv zeta.
  destruct (JS.floor_div index slotsPerRow =? 0);
    destruct (JS.floor_div index slotsPerRow =? JS.ceil_div totalSlots slotsPerRow - 1);
    destruct (Z.rem index slotsPerRow =? 0);
    destruct (Z.rem index slotsPerRow =? slotsPerRow - 1); simpl; congruence.
Qed.

Lemma corner_is_edge_witness : isEdgeSlot 7 24 = true.
Proof. apply (corner_is_edge 7 24). reflexivity. Defined.

Lemma isEdgeSlot_position (index totalSlots : Z) :
  0 <= index < totalSlots ->
  (isEdgeSlot index totalSlots = true
   <-> index / 8 = 0 \/ index / 8 = (totalSlots - 1) / 8
       \/ index mod 8 = 0 \/ index mod 8 = 7).
Proof.
  intros Hindex. unfold isEdgeSlot, slotsPerRow. cbv zeta.
  rewrite floor_div_8, ceil_div_8 by lia.
  rewrite Z.rem_mod_nonneg by lia.
  rewrite !orb_true_iff, !Z.eqb_eq. change (8 - 1) with 7. tauto.
Qed.

(** X3. For an index of the lot, the slot is an edge exactly when it is in
    the first row, in the row of the last slot, or in column 0 or 7 of the
    8-wide grid. *)
Theorem isEdgeSlot_rows_and_columns (index totalSlots : Z) :
  0 <= index < totalSlots ->
  (isEdgeSlot index totalSlots = true
   <-> index / 8 = 0 \/ index / 8 = (totalSlots - 1) / 8
       \/ index mod 8 = 0 \/ index mod 8 = 7).
Proof. apply isEdgeSlot_position. Qed.

Lemma isEdgeSlot_rows_and_columns_witness :
  isEdgeSlot 11 24 = true <-> 11 / 8 = 0 \/ 11 / 8 = (24 - 1) / 8
                              \/ 11 mod 8 = 0 \/ 11 mod 8 = 7.
Proof. apply (isEdgeSlot_rows_and_columns 11 24). lia. Defined.

Lemma edge_in_small_lot (index totalSlots : Z) :
  0 <= index < totalSlots -> totalSlots <= 16 ->
  isEdgeSlot index totalSlots = true.
Proof.
  intros Hindex Hsmall. apply isEdgeSlot_position; [exact Hindex|].
  assert (Hrow : index / 8 = 0 \/ index / 8 = 1).
  { assert (0 <= index / 8 < 2)
      by (split; [apply Z.div_pos; lia | apply Z.div_lt_upper_bound; lia]).
    lia. }
  destruct Hrow as [Hrow | Hrow]; [left; exact Hrow|].
  right; left. rewrite Hrow. symmetry.
  assert (8 <= index).
  { destruct (Z_lt_le_dec index 8) as [Hlt|]; [|assumption].
    rewrite Z.div_small in Hrow by lia. discriminate. }
  assert (1 <= (totalSlots - 1) / 8 < 2)
    by (split; [apply Z.div_le_lower_bound; lia | apply Z.div_lt_upper_bound; lia]).
  lia.
Qed.

(** X4. In a lot of at most 16 slots every slot is an edge: the grid has
    at most two rows, the first and the last. *)
Theorem small_lot_all_edges (index totalSlots : Z) :
  0 <= index < totalSlots -> totalSlots <= 16 ->
  isEdgeSlot index totalSlots = true.
Proof. apply edge_in_small_lot. Qed.

Lemma small_lot_all_edges_witness : isEdgeSlot 11 16 = true.
Proof. apply (small_lot_all_edges 11 16); lia. Defined.

Lemma filter_all {A} (P : A -> Prop) `{!forall a, Decision (P a)} (l : list A) :
  Forall P l -> filter P l = l.
Proof.
  induction 1 as [|a l Ha _ IH]; [reflexivity|].
  rewrite filter_cons_True by exact Ha. rewrite IH. reflexivity.
Qed.

(** X5. The slots the normaliser builds from a batch of at most 16
    detections are all edges. *)
Theorem detectParkingSlots_small_lot_edges (sqrt : Q -> Q) (apiKey : string)
    (response : FetchOutcome) (result : SlotDetection) :
  roboflowAPI.detectParkingSlots sqrt apiKey response = inr result ->
  total_slots result <= 16 ->
  Forall (fun s => is_edge s = true) (slots result).
Proof.
  unfold roboflowAPI.detectParkingSlots.
  destruct (decide (apiKey = ""%string)); [discriminate|].
  destruct response as [message | ok http_status statusText body]; [discriminate|].
  destruct ok; simpl; [|discriminate].
  destruct (predictions body) as [[|p ps]|]; try discriminate.
  intros [= <-]. unfold detection_of; simpl. intros Hsmall.
  apply Forall_forall. intros s Hs.
  apply list_elem_of_lookup in Hs as [i Hi].
  rewrite list_lookup_imap in Hi.
  destruct (sortSlotsSpatiallly (p :: ps) !! i) as [pred|] eqn:Hpred; [|discriminate].
  apply (inj Some) in Hi. subst s. cbn [is_edge make_slot].
  apply lookup_lt_Some in Hpred.
  apply edge_in_small_lot; lia.
Qed.

Lemma detectParkingSlots_small_lot_edges_witness :
  exists result : SlotDetection,
    roboflowAPI.detectParkingSlots (fun q => q) "key"
      (fetch_response true 200 "OK"
         {| predictions := Some example_predictions; image := None |}) = inr result
    /\ Forall (fun s => is_edge s = true) (slots result).
Proof.
  eexists. split; [reflexivity|].
  apply (detectParkingSlots_small_lot_edges (fun q => q) "key"
           (fetch_response true 200 "OK"
              {| predictions := Some example_predictions; image := None |})).
  - reflexivity.
  - vm_compute. discriminate.
Defined.

(** X6. When every empty slot is a corner or an edge, the rule of trucks,
    buses and vans selects what the rule of motorcycles selects: the first
    slot of maximal distance. *)
Theorem corner_edge_rule_is_furthest_when_all_edges (vehicleType : VehicleType)
    (emptySlots : list Slot) :
  priority (vehicleRules vehicleType) = corner_edge ->
  Forall corner_or_edge emptySlots ->
  bestSlot (vehicleRules vehicleType) emptySlots
  = bestSlot (vehicleRules motorcycle) emptySlots.
Proof.
  intros Hrule Hall. unfold bestSlot. rewrite Hrule. simpl.
  rewrite (filter_all corner_or_edge emptySlots Hall).
  destruct emptySlots; reflexivity.
Qed.

Lemma corner_edge_rule_is_furthest_when_all_edges_witness :
  bestSlot (vehicleRules truck) [occupied_slot 1; occupied_slot 2]
  = bestSlot (vehicleRules motorcycle) [occupied_slot 1; occupied_slot 2].
Proof.
  apply (corner_edge_rule_is_furthest_when_all_edges truck).
  - reflexivity.
  - repeat constructor.
Defined.

(** ** The detection service *)

(** X7. [detectParkingSlots] returns a result exactly when the API key is
    not empty, the response is a success and it carries at least one
    prediction. With an empty key it raises the key error whatever the
    response; a response that is not a success raises the API error with
    its status; a success without predictions raises the no-slots error. *)
Theorem detectParkingSlots_outcomes (sqrt : Q -> Q) (apiKey : string)
    (response : FetchOutcome) :
  ((exists result, roboflowAPI.detectParkingSlots sqrt apiKey response = inr result)
   <-> apiKey <> ""%string
       /\ exists http_status statusText body p ps,
            response = fetch_response true http_status statusText body
            /\ predictions body = Some (p :: ps))
  /\ (apiKey = ""%string ->
      roboflowAPI.detectParkingSlots sqrt apiKey response
      = inl "Please enter your Roboflow API key"%string)
  /\ (forall http_status statusText body,
        apiKey <> ""%string ->
        response = fetch_response false http_status statusText body ->
        roboflowAPI.detectParkingSlots sqrt apiKey response
        = inl ("API Error: " +:+ pretty http_status +:+ " - " +:+ statusText))
  /\ (forall http_status statusText body,
        apiKey <> ""%string ->
        response = fetch_response true http_status statusText body ->
        predictions body = None \/ predictions body = Some [] ->
        roboflowAPI.detectParkingSlots sqrt apiKey response
        = inl "No parking slots detected. Try adjusting the image or confidence threshold."%string)
  /\ (forall message,
        apiKey <> ""%string ->
        response = fetch_rejects message ->
        roboflowAPI.detectParkingSlots sqrt apiKey response = inl message).
Proof.
  unfold roboflowAPI.detectParkingSlots.
  destruct (decide (apiKey = ""%string)) as [Hkey | Hkey].
  - split; [|split; [reflexivity|repeat split; intros; contradiction]].
    split; [intros [result H]; discriminate | intros [H _]; contradiction].
  - split.
    + split.
      * intros [result H]. split; [exact Hkey|].
        destruct response as [message | ok http_status statusText body];
          [discriminate|].
        destruct ok; simpl in H; [|discriminate].
        destruct (predictions body) as [[|p ps]|] eqn:Hpreds; try discriminate.
        exists http_status, statusText, body, p, ps.
        split; [reflexivity | exact Hpreds].
      * intros (_ & http_status & statusText & body & p & ps & -> & Hpreds).
        simpl. rewrite Hpreds. eexists. reflexivity.
    + split; [intros; contradiction|]. split.
      { intros http_status statusText body _ ->. reflexivity. }
      split.
      { intros http_status statusText body _ -> [Hpreds | Hpreds]; simpl;
          rewrite Hpreds; reflexivity. }
      intros message _ ->. reflexivity.
Qed.

Lemma imap_positions {A} (l : list A) :
  imap (fun i _ => Z.of_nat i + 1) l = seqZ 1 (Z.of_nat (length l)).
Proof.
  apply list_eq. intros i. rewrite list_lookup_imap.
  destruct (l !! i) as [a|] eqn:Hi; simpl.
  - apply lookup_lt_Some in Hi. rewrite lookup_seqZ_lt by lia. f_equal. lia.
  - apply lookup_ge_None in Hi. rewrite lookup_seqZ_ge by lia. reflexivity.
Qed.

Lemma filter_imap_length {A B} (P : B -> Prop) (Q : A -> Prop)
    `{!forall b, Decision (P b)} `{!forall a, Decision (Q a)}
    (l : list A) (f : nat -> A -> B) :
  (forall i a, P (f i a) <-> Q a) ->
  length (filter P (imap f l)) = length (filter Q l).
Proof.
  revert f. induction l as [|a l IH]; intros f Hf; [reflexivity|].
  cbn [imap]. destruct (decide (Q a)) as [Ha | Ha].
  - rewrite (filter_cons_True Q) by exact Ha.
    rewrite (filter_cons_True P) by (apply Hf; exact Ha).
    simpl. f_equal. apply IH. intros i b. apply Hf.
  - rewrite (filter_cons_False Q) by exact Ha.
    rewrite (filter_cons_False P) by (rewrite Hf; exact Ha).
    apply IH. intros i b. apply Hf.
Qed.

Lemma filter_complement_length {A} (P : A -> Prop) (Q : A -> Prop)
    `{!forall a, Decision (P a)} `{!forall a, Decision (Q a)} (l : list A) :
  (forall a, Q a <-> ~ P a) ->
  (length (filter P l) + length (filter Q l) = length l)%nat.
Proof.
  intros HPQ. induction l as [|a l IH]; [reflexivity|].
  destruct (decide (P a)) as [Ha | Ha].
  - rewrite (filter_cons_True P) by exact Ha.
    rewrite (filter_cons_False Q) by (rewrite HPQ; tauto). simpl. lia.
  - rewrite (filter_cons_False P) by exact Ha.
    rewrite (filter_cons_True Q) by (rewrite HPQ; exact Ha). simpl. lia.
Qed.

Lemma detectParkingSlots_inversion (sqrt : Q -> Q) (apiKey : string)
    (response : FetchOutcome) (result : SlotDetection) :
  roboflowAPI.detectParkingSlots sqrt apiKey response = inr result ->
  exists http_status statusText body preds,
    response = fetch_response true http_status statusText body
    /\ predictions body = Some preds /\ preds <> []
    /\ result = detection_of sqrt (image body) (sortSlotsSpatiallly preds).
Proof.
  unfold roboflowAPI.detectParkingSlots.
  destruct (decide (apiKey = ""%string)); [discriminate|].
  destruct response as [message | ok http_status statusText body]; [discriminate|].
  destruct ok; simpl; [|discriminate].
  destruct (predictions body) as [[|p ps]|] eqn:Hpreds; try discriminate.
  intros [= <-]. exists http_status, statusText, body, (p :: ps).
  repeat split; [exact Hpreds | discriminate].
Qed.

Lemma make_slot_status (sqrt : Q -> Q) (image : option ImageData) (total : Z)
    (i : nat) (pred : Prediction) :
  status (make_slot sqrt image total i pred) = empty
  <-> isEmptySlot (class pred) = true.
Proof.
  cbn [status make_slot]. destruct (isEmptySlot (class pred)); split; congruence.
Qed.

(** X8. In a result of [detectParkingSlots], [empty_slots] is the list
    1, 2, ..., k for k the number of slots with status empty (positions in
    the filtered list, not slot numbers), [occupied_slots] is 1, ..., m for
    m the number of occupied slots, and k + m is [total_slots], the number
    of slots. *)
Theorem detectParkingSlots_empty_and_occupied_lists (sqrt : Q -> Q)
    (apiKey : string) (response : FetchOutcome) (result : SlotDetection) :
  roboflowAPI.detectParkingSlots sqrt apiKey response = inr result ->
  empty_slots result = seqZ 1 (Z.of_nat (emptyCount (slots result)))
  /\ occupied_slots result = seqZ 1 (Z.of_nat (occupiedCount (slots result)))
  /\ (emptyCount (slots result) + occupiedCount (slots result)
      = length (slots result))%nat
  /\ total_slots result = Z.of_nat (length (slots result)).
Proof.
  intros H.
  destruct (detectParkingSlots_inversion _ _ _ _ H)
    as (http_status & statusText & body & preds & _ & _ & _ & ->).
  unfold detection_of, emptyCount, occupiedCount; simpl.
  rewrite !imap_positions. split; [|split; [|split]].
  - f_equal. f_equal. symmetry. apply filter_imap_length.
    intros i a. apply make_slot_status.
  - f_equal. f_equal. symmetry. apply filter_imap_length.
    intros i a. cbn [status make_slot].
    destruct (isEmptySlot (class a)); split; congruence.
  - apply filter_complement_length. intros s.
    destruct (status s); split; congruence.
  - rewrite length_imap. reflexivity.
Qed.

Lemma detectParkingSlots_empty_and_occupied_lists_witness :
  exists result : SlotDetection,
    roboflowAPI.detectParkingSlots (fun q => q) "key"
      (fetch_response true 200 "OK"
         {| predictions := Some example_predictions; image := None |}) = inr result
    /\ empty_slots result = [1; 2] /\ occupied_slots result = [1]
    /\ map slot_number (filter (fun s => status s = empty) (slots result)) = [1; 3].
Proof.
  eexists. split; [reflexivity|].
  destruct (detectParkingSlots_empty_and_occupied_lists (fun q => q) "key"
              (fetch_response true 200 "OK"
                 {| predictions := Some example_predictions; image := None |})
              _ eq_refl) as (Hempty & Hoccupied & _).
  split; [exact Hempty|]. split; [exact Hoccupied | reflexivity].
Defined.

(** X9. The slots of a result carry the detections of the batch through
    unchanged, in the spatial order: reading the detection back from each
    slot gives the sorted batch, which is a rearrangement of the batch (no
    detection is lost or repeated). *)
Theorem detectParkingSlots_keeps_detections (sqrt : Q -> Q) (apiKey : string)
    (http_status : Z) (statusText : string) (body : ApiResult)
    (preds : list Prediction) (result : SlotDetection) :
  predictions body = Some preds ->
  roboflowAPI.detectParkingSlots sqrt apiKey
    (fetch_response true http_status statusText body) = inr result ->
  map slot_detection (slots result) = sortSlotsSpatiallly preds
  /\ Permutation preds (map slot_detection (slots result)).
Proof.
  intros Hpreds H.
  destruct (detectParkingSlots_inversion _ _ _ _ H)
    as (http_status' & statusText' & body' & preds' & Hresp & Hpreds' & _ & ->).
  injection Hresp as <- <- <-. rewrite Hpreds in Hpreds'.
  injection Hpreds' as <-.
  assert (Hmap : map slot_detection (slots (detection_of sqrt (image body)
                                              (sortSlotsSpatiallly preds)))
                 = sortSlotsSpatiallly preds).
  { unfold detection_of; simpl. apply list_eq. intros i.
    rewrite lookup_map, list_lookup_imap.
    destruct (sortSlotsSpatiallly preds !! i) as [[px py pw ph pc pl]|];
      reflexivity. }
  split; [exact Hmap|]. rewrite Hmap. apply sort_perm.
Qed.

Lemma detectParkingSlots_keeps_detections_witness :
  exists result : SlotDetection,
    roboflowAPI.detectParkingSlots (fun q => q) "key"
      (fetch_response true 200 "OK"
         {| predictions := Some example_predictions; image := None |}) = inr result
    /\ Permutation example_predictions (map slot_detection (slots result)).
Proof.
  eexists. split; [reflexivity|].
  apply (detectParkingSlots_keeps_detections (fun q => q) "key" 200 "OK"
           {| predictions := Some example_predictions; image := None |}
           example_predictions _ eq_refl eq_refl).
Defined.

(** X10. [detectVehicleType] returns a vehicle exactly when the API key is
    not empty, the response is a success and it carries at least one
    prediction; the vehicle is then read from the first prediction of
    maximal confidence, its category being the category of that label. *)
Theorem detectVehicleType_picks_most_confident (apiKey : string)
    (response : FetchOutcome) :
  ((exists vehicle, roboflowAPI.detectVehicleType apiKey response = inr vehicle)
   <-> apiKey <> ""%string
       /\ exists http_status statusText body p ps,
            response = fetch_response true http_status statusText body
            /\ predictions body = Some (p :: ps))
  /\ (forall http_status statusText body preds vehicle,
        response = fetch_response true http_status statusText body ->
        predictions body = Some preds ->
        roboflowAPI.detectVehicleType apiKey response = inr vehicle ->
        exists best : Prediction,
          first_max_among any confidence preds best
          /\ vehicle_type vehicle = mapClassToVehicleType (class best)
          /\ vr_original_class vehicle = class best
          /\ vr_confidence vehicle = confidence best)
  /\ (apiKey = ""%string ->
      roboflowAPI.detectVehicleType apiKey response
      = inl "Please enter your Roboflow API key"%string)
  /\ (forall http_status statusText body,
        apiKey <> ""%string ->
        response = fetch_response false http_status statusText body ->
        roboflowAPI.detectVehicleType apiKey response
        = inl ("Vehicle detection failed: " +:+ pretty http_status))
  /\ (forall http_status statusText body,
        apiKey <> ""%string ->
        response = fetch_response true http_status statusText body ->
        predictions body = None \/ predictions body = Some [] ->
        roboflowAPI.detectVehicleType apiKey response
        = inl "No vehicle detected in the image"%string).
Proof.
  unfold roboflowAPI.detectVehicleType.
  destruct (decide (apiKey = ""%string)) as [Hkey | Hkey].
  - split; [split; [intros [v H]; discriminate | intros [H _]; contradiction]|].
    split; [intros; discriminate|].
    split; [reflexivity|]. split; intros; contradiction.
  - split; [|split; [|split; [intros; contradiction|split]]].
    + split.
      * intros [vehicle H]. split; [exact Hkey|].
        destruct response as [message | ok http_status statusText body];
          [discriminate|].
        destruct ok; simpl in H; [|discriminate].
        destruct (predictions body) as [[|p ps]|] eqn:Hpreds; try discriminate.
        exists http_status, statusText, body, p, ps.
        split; [reflexivity | exact Hpreds].
      * intros (_ & http_status & statusText & body & p & ps & -> & Hpreds).
        simpl. rewrite Hpreds. simpl. eexists. reflexivity.
    + intros http_status statusText body preds vehicle -> Hpreds. simpl.
      rewrite Hpreds. destruct preds as [|p ps]; [discriminate|].
      destruct (roboflowAPI.bestPrediction (p :: ps)) as [best|] eqn:Hbest;
        [|discriminate].
      intros [= <-]. exists best. split.
      { apply (reduce_pick_max confidence any). rewrite filter_any. exact Hbest. }
      unfold roboflowAPI.bestPrediction, JS.reduce in Hbest.
      apply (inj Some) in Hbest. rewrite Hbest. repeat split.
    + intros http_status statusText body _ ->. reflexivity.
    + intros http_status statusText body _ -> [Hpreds | Hpreds]; simpl;
        rewrite Hpreds; reflexivity.
Qed.

(** ** Spatial order of batches with separated rows *)

Lemma same_row_bounds (a b : Prediction) :
  same_row a b <-> (y a - y b < 50 /\ y b - y a < 50)%Q.
Proof.
  unfold same_row. rewrite Qabs_Qlt_condition. split; intros [H1 H2]; split; lra.
Qed.







(** ** Spatial order and the algorithm of the engine *)

Section MergeFacts.

Context {A : Type} (cmp : A -> A -> Q) (P : A -> Prop).

(** The comparator is consistent on the elements satisfying [P]. *)
Hypothesis cmp_total : forall a b, ~ in_order cmp a b -> in_order cmp b a.
Hypothesis cmp_trans : forall a b c, P a -> P b -> P c ->
  in_order cmp a b -> in_order cmp b c -> in_order cmp a c.

Lemma merge_nil_l (r : list A) : JS.merge cmp [] r = r.
Proof. destruct r; reflexivity. Qed.

Lemma merge_nil_r (l : list A) : JS.merge cmp l [] = l.
Proof. destruct l; reflexivity. Qed.

Lemma merge_cons (a b : A) (l r : list A) :
  JS.merge cmp (a :: l) (b :: r)
  = if Qle_bool (cmp a b) 0 then a :: JS.merge cmp l (b :: r)
    else b :: JS.merge cmp (a :: l) r.
Proof. reflexivity. Qed.









End MergeFacts.

Section MergePerm.
Context {A : Type} (cmp : A -> A -> Q).

Lemma merge_perm (l r : list A) : Permutation (l ++ r) (JS.merge cmp l r).
Proof.
  revert r. induction l as [|a l IHl]; intros r.
  - rewrite merge_nil_l. reflexivity.
  - induction r as [|b r IHr].
    + rewrite merge_nil_r, app_nil_r. reflexivity.
    + rewrite merge_cons. destruct (Qle_bool (cmp a b) 0).
      * simpl. apply perm_skip. apply IHl.
      * rewrite <- IHr. symmetry. apply (Permutation_middle (a :: l) r b).
Qed.

Lemma merge_pairs_perm (runs : list (list A)) :
  Permutation (concat runs) (concat (JS.merge_pairs cmp runs))
  /\ forall a, Permutation (concat (a :: runs)) (concat (JS.merge_pairs cmp (a :: runs))).
Proof.
  induction runs as [|b rest [IH1 IH2]].
  - split; [reflexivity | intros a; reflexivity].
  - split; [apply IH2|]. intros a. cbn [JS.merge_pairs concat].
    rewrite app_assoc, <- merge_perm, <- IH1. reflexivity.
Qed.

Lemma merge_rounds_perm (rounds : nat) (runs : list (list A)) :
  Permutation (concat runs) (JS.merge_rounds cmp rounds runs).
Proof.
  revert runs. induction rounds as [|rounds IH]; intros runs.
  - destruct runs as [|a [|b rest]]; simpl; [reflexivity | rewrite app_nil_r | ]; reflexivity.
  - destruct runs as [|a [|b rest]]; [reflexivity | simpl; rewrite app_nil_r; reflexivity |].
    change (JS.merge_rounds cmp (S rounds) (a :: b :: rest))
      with (JS.merge_rounds cmp rounds (JS.merge_pairs cmp (a :: b :: rest))).
    rewrite <- IH. apply merge_pairs_perm.
Qed.

(** The merge sort returns a permutation of its argument, whatever the
    comparator. *)
Lemma merge_sort_perm (l : list A) : Permutation l (JS.merge_sort cmp l).
Proof.
  unfold JS.merge_sort. rewrite <- merge_rounds_perm.
  induction l as [|a l IH]; [reflexivity|]. simpl. apply perm_skip. exact IH.
Qed.
End MergePerm.



(** On the slanted batch the comparator is not consistent: the third
    detection may stand before the second and the second before the first,
    but the first must stand before the third. The order of the batch then
    depends on the algorithm: the two stable sorts return different lists. *)
Example spatial_compare_not_transitive :
  in_order spatial_compare (example_prediction 0 80 "empty") (example_prediction 5 40 "empty")
  /\ in_order spatial_compare (example_prediction 5 40 "empty")
       (example_prediction 10 0 "empty")
  /\ ~ in_order spatial_compare (example_prediction 0 80 "empty")
         (example_prediction 10 0 "empty")
  /\ ~ rows_separated slanted_predictions
  /\ sortSlotsSpatiallly_on JS.merge_sort slanted_predictions
     <> sortSlotsSpatiallly_on JS.sort slanted_predictions.
Proof.
  split; [discriminate|]. split; [discriminate|]. split; [|split; [|discriminate]].
  - intros H. apply H. reflexivity.
  - intros Hrows.
    assert (H : same_row (example_prediction 10 0 "empty") (example_prediction 0 80 "empty")).
    { apply (Hrows _ (example_prediction 5 40 "empty"));
        unfold slanted_predictions; try reflexivity; repeat constructor. }
    apply (proj1 (same_row_bounds _ _)) in H. simpl in H. lra.
Qed.




(** ** Handlers: what a step commits *)

(** X12. The slot-detection step does nothing without a parking image. With
    one, a failure of the service changes nothing of the session but the
    error message, which carries the cause; a success stores the slots,
    moves to step 2 with no error, and replaces the detection image only
    when the response carries one. The processing flag is released either
    way. *)
Theorem detectParkingSlots_step_outcomes (sqrt : Q -> Q) (response : FetchOutcome)
    (st : AppState) :
  (parkingImage st = None -> detectParkingSlots sqrt response st = st)
  /\ (forall message,
        is_Some (parkingImage st) ->
        roboflowAPI.detectParkingSlots sqrt (apiKey st) response = inl message ->
        detectParkingSlots sqrt response st
        = st |> setError ("Failed to detect parking slots: " +:+ message)
             |> setIsProcessing false)
  /\ (forall result,
        is_Some (parkingImage st) ->
        roboflowAPI.detectParkingSlots sqrt (apiKey st) response = inr result ->
        detectParkingSlots sqrt response st
        = st |> setDetectedSlots (slots result)
             |> setDetectionImage (match detection_image result with
                                   | Some img => Some img
                                   | None => detectionImage st
                                   end)
             |> setCurrentStep 2 |> setError "" |> setIsProcessing false).
Proof.
  unfold detectParkingSlots. split; [intros ->; reflexivity|]. split.
  - intros message [img ->] ->. reflexivity.
  - intros result [img ->] ->. destruct (detection_image result); reflexivity.
Qed.

(** X13. The allocation step does nothing without a vehicle image. With
    one, a failure of the vehicle detection changes nothing of the session
    but the error message: no vehicle, slot or path is committed. *)
Theorem detectVehicleAndAllocate_detection_failure (response : FetchOutcome)
    (random : nat -> Q) (st : AppState) :
  (vehicleImage st = None -> detectVehicleAndAllocate response random st = st)
  /\ (forall message,
        is_Some (vehicleImage st) ->
        roboflowAPI.detectVehicleType (apiKey st) response = inl message ->
        detectVehicleAndAllocate response random st
        = st |> setError ("Failed to detect vehicle: " +:+ message)
             |> setIsProcessing false).
Proof.
  unfold detectVehicleAndAllocate. split; [intros ->; reflexivity|].
  intros message [img ->] ->. reflexivity.
Qed.

Lemma reduce_member {A} (pick : A -> A -> A) (l : list A) (r : A) :
  (forall a b, pick a b = a \/ pick a b = b) ->
  JS.reduce pick l = Some r -> r ∈ l.
Proof.
  intros Hpick. destruct l as [|a l]; [discriminate|]. simpl. intros [= <-].
  revert a. induction l as [|b l IH]; intros a; simpl; [left|].
  destruct (Hpick a b) as [-> | ->].
  - specialize (IH a). apply elem_of_cons in IH as [-> | IH]; [left|].
    right; right; exact IH.
  - right. apply IH.
Qed.

Lemma bestSlot_member (rules : Rule) (emptySlots : list Slot) (slot : Slot) :
  bestSlot rules emptySlots = Some slot -> slot ∈ emptySlots.
Proof.
  assert (Hcloser : forall a b, pick_closer a b = a \/ pick_closer a b = b).
  { intros a b. unfold pick_closer.
    destruct (Qlt_le_dec _ _); [right | left]; reflexivity. }
  assert (Hfurther : forall a b, pick_further a b = a \/ pick_further a b = b).
  { intros a b. unfold pick_further.
    destruct (Qlt_le_dec _ _); [right | left]; reflexivity. }
  unfold bestSlot. destruct (priority rules).
  - apply reduce_member, Hcloser.
  - apply reduce_member, Hfurther.
  - destruct (0 <? length (filter corner_or_edge emptySlots))%nat.
    + intros H. apply reduce_member in H; [|exact Hfurther].
      apply list_elem_of_filter in H as [_ H]. exact H.
    + destruct emptySlots; [discriminate|]. intros [= <-]. left.
Qed.

Lemma bestSlot_some (vehicleType : VehicleType) (emptySlots : list Slot) :
  emptySlots <> [] ->
  exists slot, bestSlot (vehicleRules vehicleType) emptySlots = Some slot.
Proof.
  intros Hne. destruct emptySlots as [|s ss]; [congruence|].
  unfold bestSlot. destruct vehicleType; simpl; try (eexists; reflexivity);
    destruct (filter corner_or_edge (s :: ss)); simpl; eexists; reflexivity.
Qed.

(** X14. When the vehicle is detected and some detected slot is empty, the
    step allocates one of the detected slots, and that slot is empty; it
    commits the vehicle, stores the 3 or 4 paths generated towards the
    slot, and moves to step 3 with no error. *)
Theorem detectVehicleAndAllocate_allocates_an_empty_slot (response : FetchOutcome)
    (random : nat -> Q) (st : AppState) (vehicleResult : VehicleResult) :
  is_Some (vehicleImage st) ->
  roboflowAPI.detectVehicleType (apiKey st) response = inr vehicleResult ->
  (exists s, s ∈ detectedSlots st /\ status s = empty) ->
  let st' := detectVehicleAndAllocate response random st in
  exists slot : Slot,
    allocatedSlot st' = Some slot
    /\ slot ∈ detectedSlots st
    /\ status slot = empty
    /\ pathsData st' = generatePathsToSlot random slot
    /\ (length (pathsData st') = 3 \/ length (pathsData st') = 4)%nat
    /\ detectedVehicleType st' = Some vehicleResult
    /\ currentStep st' = 3
    /\ error st' = ""%string
    /\ isProcessing st' = false.
Proof.
  intros Himg Hdetect (s & Hs & Hempty) st'.
  assert (Hne : filter (fun slot => status slot = empty) (detectedSlots st) <> []).
  { intros Hnil.
    assert (Hmem : s ∈ filter (fun slot => status slot = empty) (detectedSlots st))
      by (apply list_elem_of_filter; split; assumption).
    rewrite Hnil in Hmem. inversion Hmem. }
  destruct (bestSlot_some (vehicle_type vehicleResult) _ Hne) as [slot Hslot].
  destruct (detectVehicleAndAllocate_allocates response random st vehicleResult
              Himg Hdetect Hne) as (Halloc & Hpaths & Hstep & Herror).
  rewrite Hslot in Halloc, Hpaths.
  pose proof (bestSlot_member _ _ _ Hslot) as Hmem.
  apply list_elem_of_filter in Hmem as [Hstatus Hin].
  exists slot. subst st'.
  split; [exact Halloc|]. split; [exact Hin|]. split; [exact Hstatus|].
  split; [exact Hpaths|]. split.
  { rewrite Hpaths. unfold generatePathsToSlot.
    rewrite length_map, length_seq. destruct (row slot <=? 1); [right | left]; reflexivity. }
  split; [|split; [exact Hstep | split; [exact Herror|]]].
  - unfold detectVehicleAndAllocate. destruct Himg as [img ->]. rewrite Hdetect.
    destruct (filter (fun slot0 => status slot0 = empty) (detectedSlots st));
      [congruence|].
    cbn [length Nat.eqb]. rewrite Hslot. reflexivity.
  - unfold detectVehicleAndAllocate. destruct Himg as [img ->]. rewrite Hdetect.
    destruct (filter (fun slot0 => status slot0 = empty) (detectedSlots st));
      [congruence|].
    cbn [length Nat.eqb]. rewrite Hslot. reflexivity.
Qed.

Lemma detectVehicleAndAllocate_allocates_an_empty_slot_witness :
  exists slot : Slot,
    allocatedSlot (detectVehicleAndAllocate (vehicle_response "Scooter-X1")
                     half_draws open_lot_state) = Some slot
    /\ status slot = empty /\ slot_number slot = 11.
Proof.
  destruct (detectVehicleAndAllocate_allocates_an_empty_slot
              (vehicle_response "Scooter-X1") half_draws open_lot_state
              {| vehicle_type := motorcycle; vr_confidence := 90; vr_x := 320;
                 vr_y := 240; vr_width := 40; vr_height := 80;
                 vr_original_class := "Scooter-X1" |})
    as (slot & Hslot & _ & Hstatus & _).
  - eexists; reflexivity.
  - reflexivity.
  - exists (interior_slot 10 50). split; [right; left | reflexivity].
  - exists slot. split; [exact Hslot|]. split; [exact Hstatus|].
    vm_compute in Hslot. injection Hslot as <-. reflexivity.
Defined.

(** ** Simulated intensities *)


Lemma simulate_from_cons (random : nat -> Q) (path : Path) (paths : list Path)
    (intensities : gmap Z Z) (n : nat) :
  simulate_from random (path :: paths) intensities n
  = simulate_from random paths
      (<[path_id path := Qfloor (random n * 80) + 10]> intensities) (S n).
Proof. reflexivity. Qed.

Lemma simulate_from_other (random : nat -> Q) (paths : list Path)
    (intensities : gmap Z Z) (n : nat) (pathId : Z) :
  pathId ∉ map path_id paths ->
  fst (simulate_from random paths intensities n) !! pathId = intensities !! pathId.
Proof.
  revert intensities n. induction paths as [|path paths IH]; intros m n Hout.
  - reflexivity.
  - rewrite simulate_from_cons, IH.
    + apply lookup_insert_ne. intros Heq. apply Hout. simpl. rewrite <- Heq. left.
    + intros Hin. apply Hout. simpl. right. exact Hin.
Qed.



Lemma simulate_from_recorded (random : nat -> Q) (paths : list Path)
    (intensities : gmap Z Z) (n : nat) (pathId : Z) :
  pathId ∈ map path_id paths ->
  is_Some (fst (simulate_from random paths intensities n) !! pathId).
Proof.
  revert intensities n. induction paths as [|p paths IH]; intros m n Hin.
  - inversion Hin.
  - rewrite simulate_from_cons.
    destruct (decide (pathId ∈ map path_id paths)) as [Hlater | Hlater].
    + apply IH. exact Hlater.
    + rewrite simulate_from_other by exact Hlater.
      simpl in Hin. apply elem_of_cons in Hin as [-> | Hin]; [|contradiction].
      rewrite lookup_insert_eq. eexists; reflexivity.
Qed.



(** ** Scoring: outcomes and composition *)

Lemma or_zero_default (v : option Z) : or_zero v = default 0 v.
Proof.
  destruct v as [n|]; [|reflexivity]. simpl.
  destruct (Z.eqb_spec n 0) as [-> | _]; reflexivity.
Qed.

Lemma calculateOptimalPath_cases (st : AppState) :
  ((exists message, calculateOptimalPath st = inl message) <-> pathsData st = [])
  /\ (forall st', calculateOptimalPath st = inr st' ->
        exists best path : Path,
          optimalPath st' = Some best
          /\ path ∈ pathsData st
          /\ path_id best = path_id path
          /\ path_name best = path_name path
          /\ distance best = distance path
          /\ tJunctions best = tJunctions path
          /\ vehicleIntensity best
             = Some (default 0 (pathVehicleIntensities st !! path_id path))
          /\ pathsData st' = pathsData st
          /\ pathVehicleIntensities st' = pathVehicleIntensities st
          /\ allocatedSlot st' = allocatedSlot st
          /\ currentStep st' = 5).
Proof.
  unfold calculateOptimalPath. split.
  - destruct (pathsData st) as [|p ps]; simpl.
    + split; [reflexivity | intros _; eexists; reflexivity].
    + split; [intros [message H]; discriminate | discriminate].
  - intros st' H.
    destruct (JS.reduce pick_lower_score
                (map (with_score (pathVehicleIntensities st)) (pathsData st)))
      as [best|] eqn:Hbest; [|discriminate].
    injection H as <-.
    apply reduce_member in Hbest.
    + apply list_elem_of_fmap in Hbest as (path & -> & Hin).
      exists (with_score (pathVehicleIntensities st) path), path.
      split; [reflexivity|]. split; [exact Hin|].
      unfold with_score; cbn [path_id path_name distance tJunctions vehicleIntensity].
      rewrite or_zero_default. repeat split.
    + intros a b. unfold pick_lower_score.
      destruct (Qlt_le_dec _ _); [right | left]; reflexivity.
Qed.

(** X16. [calculateOptimalPath] throws exactly when the state has no path.
    Otherwise the optimal path it stores is one of the paths of the state,
    with the same id, name, distance and junctions, carrying the intensity
    recorded for its id (0 when none is recorded); the paths and the
    recorded intensities themselves are left as they were, and the session
    moves to step 5. *)
Theorem calculateOptimalPath_outcomes (st : AppState) :
  ((exists message, calculateOptimalPath st = inl message) <-> pathsData st = [])
  /\ (forall st', calculateOptimalPath st = inr st' ->
        exists best path : Path,
          optimalPath st' = Some best
          /\ path ∈ pathsData st
          /\ path_id best = path_id path
          /\ path_name best = path_name path
          /\ distance best = distance path
          /\ tJunctions best = tJunctions path
          /\ vehicleIntensity best
             = Some (default 0 (pathVehicleIntensities st !! path_id path))
          /\ pathsData st' = pathsData st
          /\ pathVehicleIntensities st' = pathVehicleIntensities st
          /\ allocatedSlot st' = allocatedSlot st
          /\ currentStep st' = 5).
Proof. apply calculateOptimalPath_cases. Qed.

(** X17. After the simulated analysis, scoring succeeds whenever the state
    has a path, and the optimal path carries a simulated intensity: an
    integer in [10, 90). *)
Theorem simulated_analysis_then_scoring (random : nat -> Q) (st : AppState) :
  unit_draws random ->
  pathsData st <> [] ->
  exists (st' : AppState) (best : Path) (v : Z),
    calculateOptimalPath (detectPathVehicleIntensities random st) = inr st'
    /\ optimalPath st' = Some best
    /\ vehicleIntensity best = Some v
    /\ 10 <= v < 90
    /\ currentStep st' = 5.
Proof.
  intros Hrandom Hne.
  set (st1 := detectPathVehicleIntensities random st).
  assert (Hpaths : pathsData st1 = pathsData st) by reflexivity.
  assert (Hall : forall path, path ∈ pathsData st ->
            exists v, pathVehicleIntensities st1 !! path_id path = Some v
                      /\ 10 <= v < 90).
  { intros path Hin.
    destruct (simulate_from_recorded random (pathsData st) ∅ 0%nat (path_id path))
      as [v Hv].
    { apply list_elem_of_fmap. exists path. split; [reflexivity | exact Hin]. }
    exists v. split; [exact Hv|].
    exact (simulate_intensities_range random (pathsData st) Hrandom _ _ Hv). }
  destruct (calculateOptimalPath st1) as [message | st'] eqn:Hcalc.
  - exfalso. apply Hne. rewrite <- Hpaths.
    apply (proj1 (calculateOptimalPath_cases st1)). exists message. exact Hcalc.
  - destruct (proj2 (calculateOptimalPath_cases st1) st' Hcalc)
      as (best & path & Hbest & Hin & _ & _ & _ & _ & Hv & _ & _ & _ & Hstep).
    rewrite Hpaths in Hin. destruct (Hall path Hin) as (v & Hlookup & Hrange).
    exists st', best, v. rewrite Hlookup in Hv.
    repeat split; try assumption; lia.
Qed.

(** ** From the allocation to the optimal path *)

Lemma generatePathsToSlot_member (random : nat -> Q) (slot : Slot) (path : Path) :
  unit_draws random ->
  path ∈ generatePathsToSlot random slot ->
  exists i : Z,
    0 <= i <= 3
    /\ path_id path = i + 1
    /\ (65 + inject_Z (25 * i) <= distance path)%Q
    /\ (distance path < 85 + inject_Z (25 * i))%Q
    /\ 1 + i <= tJunctions path <= 2 + i.
Proof.
  intros Hrandom Hin. unfold generatePathsToSlot in Hin.
  apply list_elem_of_fmap in Hin as (k & -> & Hk).
  apply elem_of_seq in Hk as [_ Hk].
  assert (Hk3 : (k <= 3)%nat) by (destruct (row slot <=? 1); lia).
  exists (Z.of_nat k). cbn [path_id distance tJunctions].
  destruct (Hrandom (2 * k)%nat) as [Hd0 Hd1].
  destruct (Hrandom (2 * k + 1)%nat) as [Hj0 Hj1].
  assert (H01 : 0 <= Qfloor (random (2 * k + 1)%nat * 2) < 2).
  { apply Qfloor_between; change (inject_Z 0) with 0%Q;
      change (inject_Z 2) with 2%Q; lra. }
  replace (Z.of_nat k * 25) with (25 * Z.of_nat k) by lia.
  generalize dependent (random (2 * k)%nat). intros jitter Hd0 Hd1.
  generalize (inject_Z (25 * Z.of_nat k)). intros base.
  split; [lia|]. split; [reflexivity|]. split; [lra|]. split; [lra | lia].
Qed.

(** X18. Once the allocation step has succeeded, the rest of the flow
    cannot fail: the simulated analysis followed by the scoring stores an
    optimal path, which is one of the generated paths (id 1 to 4, distance
    from 65 to 160, both ends included since the sum of the code is rounded
    and can reach the upper end, 1 to 5 junctions) with an intensity in
    [10, 90); the allocated slot is still the one the allocation chose. *)
Theorem allocation_then_analysis_then_scoring (response : FetchOutcome)
    (random1 random2 : nat -> Q) (st : AppState) (vehicleResult : VehicleResult) :
  unit_draws random1 -> unit_draws random2 ->
  is_Some (vehicleImage st) ->
  roboflowAPI.detectVehicleType (apiKey st) response = inr vehicleResult ->
  (exists s, s ∈ detectedSlots st /\ status s = empty) ->
  let st1 := detectVehicleAndAllocate response random1 st in
  exists (st3 : AppState) (best : Path) (v : Z),
    calculateOptimalPath (detectPathVehicleIntensities random2 st1) = inr st3
    /\ optimalPath st3 = Some best
    /\ 1 <= path_id best <= 4
    /\ (65 <= distance best <= 160)%Q
    /\ 1 <= tJunctions best <= 5
    /\ vehicleIntensity best = Some v /\ 10 <= v < 90
    /\ allocatedSlot st3 = allocatedSlot st1
    /\ is_Some (allocatedSlot st3)
    /\ currentStep st3 = 5.
Proof.
  intros Hrandom1 Hrandom2 Himg Hdetect (s & Hs & Hempty) st1.
  assert (Hne : filter (fun slot => status slot = empty) (detectedSlots st) <> []).
  { intros Hnil.
    assert (Hmem : s ∈ filter (fun slot => status slot = empty) (detectedSlots st))
      by (apply list_elem_of_filter; split; assumption).
    rewrite Hnil in Hmem. inversion Hmem. }
  destruct (bestSlot_some (vehicle_type vehicleResult) _ Hne) as [slot Hslot].
  destruct (detectVehicleAndAllocate_allocates response random1 st vehicleResult
              Himg Hdetect Hne) as (Halloc & Hpaths & _ & _).
  fold st1 in Halloc, Hpaths. rewrite Hslot in Halloc, Hpaths.
  set (st2 := detectPathVehicleIntensities random2 st1).
  assert (Hpaths2 : pathsData st2 = generatePathsToSlot random1 slot)
    by (rewrite <- Hpaths; reflexivity).
  destruct (calculateOptimalPath st2) as [message | st3] eqn:Hcalc.
  - exfalso.
    assert (Hnil : pathsData st2 = [])
      by (apply (proj1 (calculateOptimalPath_cases st2)); exists message; exact Hcalc).
    rewrite Hpaths2 in Hnil. apply (f_equal length) in Hnil.
    unfold generatePathsToSlot in Hnil. rewrite length_map, length_seq in Hnil.
    destruct (row slot <=? 1); discriminate.
  - destruct (proj2 (calculateOptimalPath_cases st2) st3 Hcalc)
      as (best & path & Hbest & Hin & Hid & _ & Hdist & Hjunc & Hv & _ & _ & Hslot3 & Hstep).
    rewrite Hpaths2 in Hin.
    destruct (generatePathsToSlot_member random1 slot path Hrandom1 Hin)
      as (i & Hi & Hpid & Hd0 & Hd1 & Hj).
    destruct (simulate_from_recorded random2 (pathsData st1) ∅ 0%nat (path_id path))
      as [v Hlookup].
    { apply list_elem_of_fmap. exists path. split; [reflexivity|].
      rewrite Hpaths. exact Hin. }
    pose proof (simulate_intensities_range random2 (pathsData st1) Hrandom2 _ _ Hlookup)
      as Hrange.
    change (pathVehicleIntensities st2 !! path_id path = Some v) in Hlookup.
    rewrite Hlookup in Hv.
    exists st3, best, v. rewrite Hid, Hdist, Hjunc, Hslot3.
    split; [reflexivity|]. split; [exact Hbest|]. split; [lia|].
    split.
    { assert (Hbase : (0 <= inject_Z (25 * i) <= 75)%Q).
      { split; [change 0%Q with (inject_Z 0) | change 75%Q with (inject_Z 75)];
          rewrite <- Zle_Qle; lia. }
      lra. }
    split; [lia|]. split; [exact Hv|]. split; [lia|].
    split; [reflexivity|]. split; [|exact Hstep].
    change (allocatedSlot st2) with (allocatedSlot st1). rewrite Halloc.
    eexists; reflexivity.
Qed.

Lemma allocation_then_analysis_then_scoring_witness :
  exists (st3 : AppState) (best : Path),
    calculateOptimalPath
      (detectPathVehicleIntensities half_draws
         (detectVehicleAndAllocate (vehicle_response "Scooter-X1") half_draws
            open_lot_state)) = inr st3
    /\ optimalPath st3 = Some best
    /\ path_id best = 1.
Proof.
  destruct (allocation_then_analysis_then_scoring
              (vehicle_response "Scooter-X1") half_draws half_draws open_lot_state
              {| vehicle_type := motorcycle; vr_confidence := 90; vr_x := 320;
                 vr_y := 240; vr_width := 40; vr_height := 80;
                 vr_original_class := "Scooter-X1" |})
    as (st3 & best & v & Hcalc & Hbest & _).
  - intros n. unfold half_draws. split; [discriminate | reflexivity].
  - intros n. unfold half_draws. split; [discriminate | reflexivity].
  - eexists; reflexivity.
  - reflexivity.
  - exists (interior_slot 10 50). split; [right; left | reflexivity].
  - exists st3, best. split; [exact Hcalc|]. split; [exact Hbest|].
    vm_compute in Hcalc. injection Hcalc as <-.
    vm_compute in Hbest. injection Hbest as <-. reflexivity.
Defined.

Lemma simulated_analysis_then_scoring_witness :
  exists (st' : AppState) (best : Path),
    calculateOptimalPath
      (detectPathVehicleIntensities half_draws
         (initialState |> setPathsData example_paths)) = inr st'
    /\ optimalPath st' = Some best
    /\ vehicleIntensity best = Some 50.
Proof.
  destruct (simulated_analysis_then_scoring half_draws
              (initialState |> setPathsData example_paths))
    as (st' & best & v & Hcalc & Hbest & _).
  - intros n. unfold half_draws. split; [discriminate | reflexivity].
  - discriminate.
  - exists st', best. split; [exact Hcalc|]. split; [exact Hbest|].
    vm_compute in Hcalc. injection Hcalc as <-.
    vm_compute in Hbest. injection Hbest as <-. reflexivity.
Defined.

(** ** The comparison view *)



(** ** Reading back a decimal numeral *)

Lemma digit_of_pretty_char (d : N) :
  (d < 10)%N -> JS.digit_of 10 (pretty_N_char d) = Some (Z.of_N d).
Proof.
  intros Hd.
  assert (Hcases : (d = 0 \/ d = 1 \/ d = 2 \/ d = 3 \/ d = 4 \/ d = 5 \/ d = 6
                    \/ d = 7 \/ d = 8 \/ d = 9)%N) by lia.
  repeat (destruct Hcases as [-> | Hcases]; [reflexivity|]).
  subst d. reflexivity.
Qed.

Lemma read_digits_pretty (x : N) (s : string) :
  (0 < x)%N ->
  JS.read_digits 10 None (pretty_N_go x s) = JS.read_digits 10 (Some (Z.of_N x)) s.
Proof.
  revert s. induction (N.lt_wf_0 x) as [x _ IH]. intros s Hx.
  rewrite pretty_N_go_step by exact Hx.
  assert (Hmod : (x `mod` 10 < 10)%N) by (apply N.mod_lt; lia).
  pose proof (N.div_mod x 10 ltac:(lia)) as Hdivmod.
  destruct (N.eq_dec (x `div` 10)%N 0%N) as [Hzero | Hpos].
  - rewrite Hzero, pretty_N_go_0. cbn [JS.read_digits].
    rewrite digit_of_pretty_char by exact Hmod. cbn [default].
    do 2 f_equal. lia.
  - rewrite IH; [|apply N.div_lt; lia|lia].
    cbn [JS.read_digits]. rewrite digit_of_pretty_char by exact Hmod. cbn [default].
    do 2 f_equal. unfold id. lia.
Qed.

Lemma pretty_N_go_head (x : N) (s : string) :
  (0 < x)%N ->
  exists (d : N) (rest : string),
    (1 <= d <= 9)%N /\ pretty_N_go x s = String (pretty_N_char d) rest.
Proof.
  revert s. induction (N.lt_wf_0 x) as [x _ IH]. intros s Hx.
  rewrite pretty_N_go_step by exact Hx.
  pose proof (N.div_mod x 10 ltac:(lia)) as Hdivmod.
  assert (Hmod : (x `mod` 10 < 10)%N) by (apply N.mod_lt; lia).
  destruct (N.eq_dec (x `div` 10)%N 0%N) as [Hzero | Hpos].
  - rewrite Hzero, pretty_N_go_0. exists (x `mod` 10)%N, s. split; [lia | reflexivity].
  - apply IH; [apply N.div_lt; lia | lia].
Qed.

Lemma parse_magnitude_pretty (x : N) :
  (0 < x)%N ->
  JS.skip_spaces (pretty_N_go x "") = pretty_N_go x ""
  /\ JS.parseInt (pretty_N_go x "") = Some (Z.of_N x)
  /\ JS.read_magnitude (pretty_N_go x "") = Some (Z.of_N x).
Proof.
  intros Hx. pose proof (read_digits_pretty x "" Hx) as Hread.
  destruct (pretty_N_go_head x "" Hx) as (d & rest & Hd & Hhead).
  rewrite Hhead in *.
  assert (Hcases : (d = 1 \/ d = 2 \/ d = 3 \/ d = 4 \/ d = 5 \/ d = 6
                    \/ d = 7 \/ d = 8 \/ d = 9)%N) by lia.
  repeat (destruct Hcases as [-> | Hcases];
          [repeat split; exact Hread|]).
  subst d. repeat split; exact Hread.
Qed.

Lemma parseInt_pretty (n : Z) : JS.parseInt (pretty n) = Some n.
Proof.
  destruct n as [|p|p].
  - reflexivity.
  - change (pretty (Z.pos p)) with (pretty (N.pos p)).
    unfold pretty, pretty_N. destruct (decide (N.pos p = 0%N)); [discriminate|].
    destruct (parse_magnitude_pretty (N.pos p)) as (_ & Hparse & _); [lia|].
    exact Hparse.
  - change (pretty (Z.neg p)) with ("-" +:+ pretty (N.pos p)).
    unfold pretty, pretty_N. destruct (decide (N.pos p = 0%N)); [discriminate|].
    destruct (parse_magnitude_pretty (N.pos p)) as (_ & _ & Hmag); [lia|].
    change (JS.parseInt ("-" +:+ pretty_N_go (N.pos p) ""))
      with (Z.opp <$> JS.read_magnitude (pretty_N_go (N.pos p) "")).
    rewrite Hmag. reflexivity.
Qed.

(** X20. An integer of magnitude at most 2^53 is a double, so that
    [parseInt] returns it as it is and not rounded. Typing its decimal
    numeral, negative or above 100 included, into the intensity field of a
    path records that integer for the path; the intensities of the other
    paths are untouched; and typing the value already recorded leaves the
    state as it is. *)
Theorem handleVehicleIntensityChange_records_typed_integer (pathId n : Z)
    (st : AppState) :
  - 2 ^ 53 <= n <= 2 ^ 53 ->
  Binary64.representable (inject_Z n)
  /\ pathVehicleIntensities (handleVehicleIntensityChange pathId (pretty n) st) !! pathId
     = Some n
  /\ (forall other, other <> pathId ->
        pathVehicleIntensities (handleVehicleIntensityChange pathId (pretty n) st)
        !! other = pathVehicleIntensities st !! other)
  /\ (pathVehicleIntensities st !! pathId = Some n ->
      handleVehicleIntensityChange pathId (pretty n) st = st).
Proof.
  intros Hn. split; [apply integer_representable; exact Hn|].
  unfold handleVehicleIntensityChange. rewrite parseInt_pretty, or_zero_Some.
  split; [apply lookup_insert_eq|]. split.
  - intros other Hne. apply lookup_insert_ne. congruence.
  - intros Hrecorded. destruct st. unfold setPathVehicleIntensities. simpl in *.
    rewrite insert_id by exact Hrecorded. reflexivity.
Qed.

Lemma handleVehicleIntensityChange_records_typed_integer_witness :
  pathVehicleIntensities (handleVehicleIntensityChange 1 "150" example_state) !! 1
  = Some 150
  /\ pathVehicleIntensities (handleVehicleIntensityChange 1 "-7" example_state) !! 2
     = Some 60.
Proof.
  split.
  - apply (handleVehicleIntensityChange_records_typed_integer 1 150 example_state). lia.
  - destruct (handleVehicleIntensityChange_records_typed_integer 1 (-7) example_state)
      as (_ & _ & Hother & _); [lia|].
    exact (Hother 2 ltac:(discriminate)).
Defined.

(** ** Reset and replay *)

(** Normalises a chain of setters over a record. *)
Ltac state_norm :=
  cbv beta iota zeta delta
    [setCurrentStep setParkingImage setVehicleImage setDetectedSlots
     setDetectedVehicleType setAllocatedSlot setPathsData setPathVehicleIntensities
     setOptimalPath setIsProcessing setError setDetectionImage setApiKey
     setShowApiKey currentStep parkingImage vehicleImage detectedSlots
     detectedVehicleType allocatedSlot pathsData pathVehicleIntensities
     optimalPath isProcessing error detectionImage apiKey showApiKey].

(** The two detection steps, once their image is there, as one case
    analysis on the answer of the service. *)
Lemma detectParkingSlots_step (sqrt : Q -> Q) (response : FetchOutcome)
    (st : AppState) :
  is_Some (parkingImage st) ->
  detectParkingSlots sqrt response st
  = match roboflowAPI.detectParkingSlots sqrt (apiKey st) response with
    | inr result =>
        st |> setDetectedSlots (slots result)
           |> setDetectionImage (match detection_image result with
                                 | Some img => Some img
                                 | None => detectionImage st
                                 end)
           |> setCurrentStep 2 |> setError "" |> setIsProcessing false
    | inl message =>
        st |> setError ("Failed to detect parking slots: " +:+ message)
           |> setIsProcessing false
    end.
Proof.
  intros [img Himg]. unfold detectParkingSlots. rewrite Himg.
  destruct (roboflowAPI.detectParkingSlots sqrt (apiKey st) response) as [m | r];
    [reflexivity|].
  destruct (detection_image r); reflexivity.
Qed.

Lemma detectVehicleAndAllocate_step (response : FetchOutcome) (random : nat -> Q)
    (st : AppState) :
  is_Some (vehicleImage st) ->
  detectVehicleAndAllocate response random st
  = match roboflowAPI.detectVehicleType (apiKey st) response with
    | inr vehicleResult =>
        let emptySlots := filter (fun slot => status slot = empty) (detectedSlots st) in
        if (length emptySlots =? 0)%nat then
          st |> setDetectedVehicleType (Some vehicleResult)
             |> setError "No empty slots available" |> setIsProcessing false
        else
          let best := bestSlot (vehicleRules (vehicle_type vehicleResult)) emptySlots in
          st |> setDetectedVehicleType (Some vehicleResult)
             |> setAllocatedSlot best
             |> setPathsData (match best with
                              | Some slot => generatePathsToSlot random slot
                              | None => pathsData st
                              end)
             |> setCurrentStep 3 |> setError "" |> setIsProcessing false
    | inl message =>
        st |> setError ("Failed to detect vehicle: " +:+ message)
           |> setIsProcessing false
    end.
Proof.
  intros [img Himg]. unfold detectVehicleAndAllocate. rewrite Himg.
  destruct (roboflowAPI.detectVehicleType (apiKey st) response) as [m | v];
    [reflexivity|].
  cbv zeta.
  destruct (length (filter (fun slot => status slot = empty) (detectedSlots st)) =? 0)%nat;
    [reflexivity|].
  destruct (bestSlot _ _); reflexivity.
Qed.


Lemma detectParkingSlots_ignores_flags (sqrt : Q -> Q) (response : FetchOutcome)
    (b c : bool) (st : AppState) :
  is_Some (parkingImage st) ->
  detectParkingSlots sqrt response (st |> setIsProcessing c |> setShowApiKey b)
  = detectParkingSlots sqrt response st |> setShowApiKey b.
Proof.
  intros Himg.
  rewrite !detectParkingSlots_step by (destruct st; exact Himg).
  destruct st; state_norm.
  destruct (roboflowAPI.detectParkingSlots sqrt apiKey0 response) as [m | r];
    state_norm; [reflexivity|].
  destruct (detection_image r); reflexivity.
Qed.

Lemma detectVehicleAndAllocate_ignores_flag (response : FetchOutcome)
    (random : nat -> Q) (b : bool) (st : AppState) :
  detectVehicleAndAllocate response random (st |> setShowApiKey b)
  = detectVehicleAndAllocate response random st |> setShowApiKey b.
Proof.
  destruct (vehicleImage st) as [img|] eqn:Himg.
  - rewrite !detectVehicleAndAllocate_step
      by (destruct st; simpl in Himg; subst; eexists; reflexivity).
    destruct st; state_norm.
    destruct (roboflowAPI.detectVehicleType apiKey0 response) as [m | v];
      state_norm; [reflexivity|].
    destruct (length (filter (fun slot => status slot = empty) detectedSlots0) =? 0)%nat;
      state_norm; [reflexivity|].
    destruct (bestSlot _ _); reflexivity.
  - unfold detectVehicleAndAllocate. destruct st; simpl in Himg; subst. reflexivity.
Qed.

(** X22. No state leaks through a reset: two sessions replayed from a reset
    under the same API key, on the same images, answers and draws, end in
    the same state, up to the key-visibility flag, which the steps neither
    read nor write. *)
Theorem replay_after_reset_is_reproducible (sqrt : Q -> Q)
    (parking vehicle : string) (slotsResponse vehicleResponse : FetchOutcome)
    (random : nat -> Q) (st1 st2 : AppState) :
  apiKey st1 = apiKey st2 ->
  replay sqrt parking vehicle slotsResponse vehicleResponse random st1
  = replay sqrt parking vehicle slotsResponse vehicleResponse random st2
      |> setShowApiKey (showApiKey st1).
Proof.
  intros Hkey.
  assert (Hbase : forall st,
    replay sqrt parking vehicle slotsResponse vehicleResponse random st
    = replay sqrt parking vehicle slotsResponse vehicleResponse random
        (initialState |> setApiKey (apiKey st))
      |> setShowApiKey (showApiKey st)).
  { intros st. unfold replay. rewrite !resetSystem_cleared.
    replace (handleParkingImageUpload (Some parking) (cleared st))
      with (handleParkingImageUpload (Some parking)
              (cleared (initialState |> setApiKey (apiKey st)))
            |> setIsProcessing (isProcessing st) |> setShowApiKey (showApiKey st))
      by reflexivity.
    rewrite detectParkingSlots_ignores_flags by (eexists; reflexivity).
    replace (handleVehicleImageUpload (Some vehicle)
               (detectParkingSlots sqrt slotsResponse
                  (handleParkingImageUpload (Some parking)
                     (cleared (initialState |> setApiKey (apiKey st))))
                |> setShowApiKey (showApiKey st)))
      with (handleVehicleImageUpload (Some vehicle)
              (detectParkingSlots sqrt slotsResponse
                 (handleParkingImageUpload (Some parking)
                    (cleared (initialState |> setApiKey (apiKey st)))))
            |> setShowApiKey (showApiKey st)).
    - apply detectVehicleAndAllocate_ignores_flag.
    - generalize (detectParkingSlots sqrt slotsResponse
                 (handleParkingImageUpload (Some parking)
                    (cleared (initialState |> setApiKey (apiKey st))))).
      intros s. destruct s. reflexivity. }
  rewrite (Hbase st1), (Hbase st2), Hkey.
  generalize (replay sqrt parking vehicle slotsResponse vehicleResponse random
                (initialState |> setApiKey (apiKey st2))).
  intros s. destruct s. reflexivity.
Qed.

Lemma replay_after_reset_is_reproducible_witness :
  replay (fun q => q) "lot" "vehicle"
    (fetch_response true 200 "OK"
       {| predictions := Some example_predictions; image := None |})
    (vehicle_response "car") half_draws full_lot_state
  = replay (fun q => q) "lot" "vehicle"
      (fetch_response true 200 "OK"
         {| predictions := Some example_predictions; image := None |})
      (vehicle_response "car") half_draws open_lot_state
    |> setShowApiKey (showApiKey full_lot_state).
Proof.
  apply (replay_after_reset_is_reproducible (fun q => q) "lot" "vehicle"
           (fetch_response true 200 "OK"
              {| predictions := Some example_predictions; image := None |})
           (vehicle_response "car") half_draws full_lot_state open_lot_state).
  reflexivity.
Defined.

(** ** The API key form *)

Lemma skip_spaces_blank (s : string) : JS.skip_spaces s = ""%string <-> blank s.
Proof.
  unfold blank. induction s as [|c s IH]; simpl.
  - split; [constructor | reflexivity].
  - destruct (JS.is_space c) eqn:Hc.
    + rewrite IH. split; [intros H; constructor; assumption|].
      intros H. inversion H; assumption.
    + split; [discriminate|]. intros H. inversion H; congruence.
Qed.

Lemma trimEnd_empty (s : string) : JS.trimEnd s = ""%string <-> blank s.
Proof.
  unfold blank. induction s as [|c s IH]; simpl.
  - split; [constructor | reflexivity].
  - destruct (JS.trimEnd s) as [|c' t] eqn:Ht.
    + destruct (JS.is_space c) eqn:Hc.
      * split; [|reflexivity]. intros _. constructor; [exact Hc|].
        apply IH. reflexivity.
      * split; [discriminate|]. intros H. inversion H; congruence.
    + split; [discriminate|]. intros H. inversion H as [|? ? _ Hs].
      apply IH in Hs. discriminate.
Qed.

Lemma skip_spaces_suffix_blank (s : string) :
  blank s -> blank (JS.skip_spaces s).
Proof. intros H. apply skip_spaces_blank in H. rewrite H. constructor. Qed.

Lemma blank_skip_spaces (s : string) : blank (JS.skip_spaces s) -> blank s.
Proof.
  unfold blank. induction s as [|c s IH]; simpl; [trivial|].
  destruct (JS.is_space c) eqn:Hc.
  - intros H. constructor; [exact Hc | apply IH; exact H].
  - intros H. inversion H; congruence.
Qed.

Lemma trim_empty (s : string) : JS.trim s = ""%string <-> blank s.
Proof.
  unfold JS.trim. rewrite trimEnd_empty. split.
  - apply blank_skip_spaces.
  - apply skip_spaces_suffix_blank.
Qed.

(** X23. Submitting the API key form sets the key error exactly when the
    key is blank (empty or white space only); otherwise it clears the error
    and hides the key. It never changes the key or any other part of the
    session. A key of white space only is refused by the form yet is not
    an empty key for the detection service. *)
Theorem handleApiKeySubmit_blank_key (st : AppState) :
  (blank (apiKey st) ->
   handleApiKeySubmit st = st |> setError "Please enter your Roboflow API key")
  /\ (~ blank (apiKey st) ->
      handleApiKeySubmit st = st |> setError "" |> setShowApiKey false)
  /\ apiKey (handleApiKeySubmit st) = apiKey st
  /\ detectedSlots (handleApiKeySubmit st) = detectedSlots st
  /\ currentStep (handleApiKeySubmit st) = currentStep st
  /\ (forall sqrt http_status statusText body p ps,
        blank (apiKey st) -> apiKey st <> ""%string ->
        predictions body = Some (p :: ps) ->
        exists result,
          roboflowAPI.detectParkingSlots sqrt (apiKey (handleApiKeySubmit st))
            (fetch_response true http_status statusText body) = inr result).
Proof.
  unfold handleApiKeySubmit.
  destruct (decide (JS.trim (apiKey st) = ""%string)) as [Hblank | Hblank].
  - apply trim_empty in Hblank.
    split; [reflexivity|]. split; [intros H; contradiction|].
    repeat split. intros sqrt http_status statusText body p ps _ Hkey Hpreds.
    cbn [apiKey setError]. unfold roboflowAPI.detectParkingSlots.
    destruct (decide (apiKey st = ""%string)); [contradiction|].
    simpl. rewrite Hpreds. eexists. reflexivity.
  - rewrite trim_empty in Hblank.
    split; [intros H; contradiction|]. split; [reflexivity|].
    repeat split. intros sqrt http_status statusText body p ps H. contradiction.
Qed.

(** ** Values the views compute *)

Lemma counts_partition (slots : list Slot) :
  (emptyCount slots + occupiedCount slots = length slots)%nat.
Proof.
  unfold emptyCount, occupiedCount. apply filter_complement_length.
  intros s. destruct (status s); split; congruence.
Qed.

(** X24. The detection summary: the empty and the occupied count add up to
    the number of slots; the occupancy rate lies between 0 and 100; and for
    a lot with slots it is 100 exactly when no slot is empty, which is when
    the allocation step fails for want of an empty slot. *)
Theorem occupancy_summary (slots : list Slot) :
  (emptyCount slots + occupiedCount slots = length slots)%nat
  /\ (0 <= occupancyRate slots <= 100)%Q
  /\ (slots <> [] ->
      ((occupancyRate slots == 100)%Q
       <-> filter (fun slot => status slot = empty) slots = [])).
Proof.
  pose proof (counts_partition slots) as Hsum.
  split; [exact Hsum|].
  unfold occupancyRate. destruct slots as [|s ss] eqn:Hslots.
  - split; [simpl; lra | intros H; congruence].
  - rewrite <- Hslots in *. assert (Hlen : (0 < length slots)%nat) by (subst; simpl; lia).
    destruct (Nat.ltb_spec 0 (length slots)) as [_ | Hbad]; [|lia].
    set (o := inject_Z (Z.of_nat (occupiedCount slots))).
    set (l := inject_Z (Z.of_nat (length slots))).
    assert (Ho : (0 <= o)%Q).
    { unfold o. change 0%Q with (inject_Z 0). rewrite <- Zle_Qle. lia. }
    assert (Hl : (0 < l)%Q).
    { unfold l. change 0%Q with (inject_Z 0). rewrite <- Zlt_Qlt. lia. }
    assert (Hol : (o <= l)%Q) by (unfold o, l; rewrite <- Zle_Qle; lia).
    assert (Hne : ~ (l == 0)%Q) by lra.
    assert (Hratio : (o / l * l == o)%Q) by (field; exact Hne).
    assert (Hr0 : (0 <= o / l)%Q) by (apply Qle_shift_div_l; [exact Hl | lra]).
    assert (Hr1 : (o / l <= 1)%Q) by (apply Qle_shift_div_r; [exact Hl | lra]).
    split; [lra|]. intros _.
    assert (Hempty : filter (fun slot => status slot = empty) slots = []
                     <-> emptyCount slots = 0%nat).
    { unfold emptyCount. split; [intros ->; reflexivity|].
      destruct (filter _ slots); [reflexivity | discriminate]. }
    rewrite Hempty. split.
    + intros Hfull. assert (Heq : (o == l)%Q).
      { rewrite <- Hratio. assert (o / l == 1)%Q by lra. rewrite H. ring. }
      unfold o, l in Heq. apply (proj1 (inject_Z_injective _ _)) in Heq. lia.
    + intros Hzero. assert (Heq : (o == l)%Q).
      { unfold o, l. apply inject_Z_injective. lia. }
      rewrite Heq. field. exact Hne.
Qed.

Lemma Qceiling_between (q : Q) (a b : Z) :
  (inject_Z a < q)%Q -> (q <= inject_Z b)%Q -> a < Qceiling q <= b.
Proof.
  intros Hlo Hhi. split.
  - rewrite Zlt_Qlt. apply Qlt_le_trans with q; [exact Hlo | apply Qle_ceiling].
  - rewrite <- (Qceiling_Z b). apply Qceiling_resp_le. exact Hhi.
Qed.

(** X25. The estimated time shown for a generated path is between 3 and 6
    minutes. *)
Theorem estimatedTime_of_generated_path (random : nat -> Q) (slot : Slot)
    (path : Path) :
  unit_draws random ->
  path ∈ generatePathsToSlot random slot ->
  3 <= estimatedTime path <= 6.
Proof.
  intros Hrandom Hin.
  destruct (generatePathsToSlot_member random slot path Hrandom Hin)
    as (i & Hi & _ & Hd0 & Hd1 & _).
  assert (Hbase : (0 <= inject_Z (25 * i) <= 75)%Q).
  { split; [change 0%Q with (inject_Z 0) | change 75%Q with (inject_Z 75)];
      rewrite <- Zle_Qle; lia. }
  unfold estimatedTime.
  assert (2 < Qceiling (distance path / 30) <= 6); [|lia].
  apply Qceiling_between.
  - change (inject_Z 2) with 2%Q. apply Qlt_shift_div_l; lra.
  - change (inject_Z 6) with 6%Q. apply Qle_shift_div_r; lra.
Qed.

Lemma estimatedTime_of_generated_path_witness :
  map estimatedTime (generatePathsToSlot half_draws (interior_slot 10 50))
  = [3; 4; 5; 5]
  /\ Forall (fun path => 3 <= estimatedTime path <= 6)
       (generatePathsToSlot half_draws (interior_slot 10 50)).
Proof.
  split; [reflexivity|]. apply Forall_forall. intros path Hin.
  apply (estimatedTime_of_generated_path half_draws (interior_slot 10 50) path).
  - intros n. unfold half_draws. split; [discriminate | reflexivity].
  - exact Hin.
Defined.

Lemma toUpperCase_char_ascii (c : ascii) :
  (N_of_ascii c <? 128)%N = true ->
  (N_of_ascii (JS.toUpperCase_char c) <? 128)%N = true.
Proof. destruct c as [[] [] [] [] [] [] [] []]; intros H; try exact H; reflexivity. Qed.

Lemma formatVehicleType_ascii (type : string) :
  is_ascii type = true -> is_ascii (formatVehicleType type) = true.
Proof.
  unfold formatVehicleType. destruct type as [|c s]; [reflexivity|].
  cbn [JS.charAt0 JS.slice1 JS.toUpperCase]. rewrite append_cons, append_nil.
  cbn [is_ascii]. intros H. apply andb_true_iff in H as [Hc Hs].
  rewrite (toUpperCase_char_ascii c Hc), Hs. reflexivity.
Qed.

Lemma toLowerCase_toUpperCase_char (c : ascii) :
  JS.toLowerCase_char (JS.toUpperCase_char c) = JS.toLowerCase_char c.
Proof. destruct c as [[] [] [] [] [] [] [] []]; reflexivity. Qed.

(** X26. On a string of ASCII characters, as the five vehicle types are,
    [formatVehicleType] changes at most the case of the first letter: the
    result is a string of ASCII characters with the length of the argument
    and the same lower-case form, so the classifier and the slot-status
    test read it as they read the argument. (Outside ASCII the engine's
    [toUpperCase] can change the length.) *)
Theorem formatVehicleType_changes_case_only (type : string) :
  is_ascii type = true ->
  is_ascii (formatVehicleType type) = true
  /\ String.length (formatVehicleType type) = String.length type
  /\ same_ignoring_case (formatVehicleType type) type
  /\ mapClassToVehicleType (formatVehicleType type) = mapClassToVehicleType type
  /\ formatVehicleType "motorcycle" = "Motorcycle"%string.
Proof.
  intros Hascii. split; [apply formatVehicleType_ascii; exact Hascii|].
  assert (Hsame : same_ignoring_case (formatVehicleType type) type).
  { unfold same_ignoring_case, formatVehicleType.
    destruct type as [|c s]; [reflexivity|].
    cbn [JS.charAt0 JS.slice1 JS.toUpperCase]. rewrite append_cons, append_nil.
    cbn [JS.toLowerCase]. rewrite toLowerCase_toUpperCase_char. reflexivity. }
  split.
  - unfold formatVehicleType. destruct type as [|c s]; reflexivity.
  - split; [exact Hsame|]. split; [|reflexivity].
    unfold mapClassToVehicleType. unfold same_ignoring_case in Hsame.
    rewrite Hsame. reflexivity.
Qed.

Lemma formatVehicleType_changes_case_only_witness :
  formatVehicleType "truck" = "Truck"%string
  /\ mapClassToVehicleType (formatVehicleType "truck") = truck.
Proof.
  destruct (formatVehicleType_changes_case_only "truck" eq_refl)
    as (_ & _ & _ & Hmap & _).
  split; [reflexivity|]. rewrite Hmap. reflexivity.
Defined.

(** X21. [resetSystem] restores the initial session, keeping only the API
    key, the key-visibility flag and the processing flag; resetting twice
    is resetting once; and on a reset session neither detection step does
    anything until an image is uploaded. *)
Theorem resetSystem_restores_initial_session (st : AppState) :
  resetSystem st
  = initialState |> setApiKey (apiKey st) |> setShowApiKey (showApiKey st)
                 |> setIsProcessing (isProcessing st)
  /\ resetSystem (resetSystem st) = resetSystem st
  /\ (forall sqrt response,
        detectParkingSlots sqrt response (resetSystem st) = resetSystem st)
  /\ (forall response random,
        detectVehicleAndAllocate response random (resetSystem st) = resetSystem st).
Proof.
  rewrite !resetSystem_cleared. split; [reflexivity|].
  split; [reflexivity|]. split; intros; reflexivity.
Qed.
